(** * catpath: concatenating directory paths into a path list

    A shallow embedding of [catpath.cpp] and the properties of its
    tokenizer ([parse_path]), its assembler ([build_path]) and its
    command line handling ([get_opts], [main]).

    Conventions.
    - A [std::string] and the characters of a C string are both a [string].
      A [const char *] into a NUL-terminated array is the [string] of the
      characters from the pointer on; reading through it is [deref], which
      yields NUL at the end of the array, as the terminator does.
    - [std::set<string>] is a [gset string].
    - An exception is a value of [exn]; code that may throw returns a
      [result].
    - The environment and the file system are a [World]. Code that calls
      into them runs in the monad [M], which threads the trace of the
      [syscall]s made so far and stops at the first exception. *)

From stdpp Require Import base gmap strings list.
From Stdlib Require Import Ascii ZArith.

Local Open Scope stdpp_scope.

(** ** Characters and C strings *)

Definition NUL : ascii := "000"%char.

(** [*p] *)
Definition deref (p : string) : ascii :=
  match p with
  | EmptyString => NUL
  | String c _ => c
  end.

(** The characters a C library function sees through a [const char *]:
    those before the first NUL. *)
Fixpoint c_str (p : string) : string :=
  match p with
  | EmptyString => EmptyString
  | String c p' => if decide (c = NUL) then EmptyString else String c (c_str p')
  end.

(** [c] occurs in [s]. *)
Fixpoint occurs (c : ascii) (s : string) : bool :=
  match s with
  | EmptyString => false
  | String d s' => bool_decide (d = c) || occurs c s'
  end.

(** ** Exceptions, and the monad of code that makes system calls *)

Inductive exn : Type :=
| out_of_range (pos size : nat)   (* thrown by [std::string::at] *)
| runtime_error (what : string).

#[global] Instance exn_eq_dec : EqDecision exn.
Proof. solve_decision. Defined.

Inductive result (A : Type) : Type :=
| Ok (a : A)
| Throw (e : exn).
Arguments Ok {A} a.
Arguments Throw {A} e.

#[global] Instance result_ret : MRet result := fun A a => Ok a.
#[global] Instance result_bind : MBind result := fun A B f m =>
  match m with
  | Ok a => f a
  | Throw e => Throw e
  end.

Inductive syscall : Type :=
| sys_getenv (name : string)
| sys_stat (pathname : string).

#[global] Instance syscall_eq_dec : EqDecision syscall.
Proof. solve_decision. Defined.

(** A computation takes the trace of the calls made before it and gives
    its result, or the exception it threw, with the trace after it. *)
Definition M (A : Type) : Type := list syscall → result A * list syscall.

#[global] Instance M_ret : MRet M := fun A a tr => (Ok a, tr).
#[global] Instance M_bind : MBind M := fun A B f m tr =>
  match m tr with
  | (Ok a, tr') => f a tr'
  | (Throw e, tr') => (Throw e, tr')
  end.

Definition throw {A : Type} (e : exn) : M A := fun tr => (Throw e, tr).

(** A call [c] that answers [a]. *)
Definition sys {A : Type} (c : syscall) (a : A) : M A := fun tr => (Ok a, tr ++ [c]).

(** ** The members of [std::string] that the program uses *)

Module Str.

Definition empty (s : string) : bool :=
  match s with
  | EmptyString => true
  | String _ _ => false
  end.

(** [s.at( pos )]: bounds-checked access. *)
Definition at_ (s : string) (pos : nat) : M ascii :=
  match String.get pos s with
  | Some c => mret c
  | None => throw (out_of_range pos (String.length s))
  end.

(** [s.erase( 0, 1 )] *)
Definition erase_first (s : string) : string :=
  match s with
  | EmptyString => EmptyString
  | String _ s' => s'
  end.

(** [s.insert( 0, p )] for a [const char * p] *)
Definition insert_front (s : string) (p : string) : string := c_str p +:+ s.

(** [s += c] *)
Definition push_back (s : string) (c : ascii) : string := s +:+ String c EmptyString.

End Str.

(** ** The tokenizer: [parse_path] *)

(** What a scan over a character array does. *)
Inductive scan (A : Type) : Type :=
| Returns (a : A)
| PastEnd          (* a read beyond the terminating NUL: undefined behaviour *)
| Unfinished.      (* the iteration bound of the model was reached *)
Arguments Returns {A} a.
Arguments PastEnd {A}.
Arguments Unfinished {A}.

(** [while( sep == *start ) ++start;] *)
Fixpoint skip_seps (sep : ascii) (start : string) : scan string :=
  match start with
  | EmptyString => if decide (sep = NUL) then PastEnd else Returns EmptyString
  | String c p => if decide (sep = c) then skip_seps sep p else Returns start
  end.

(** [while( *stop && *stop != sep ) ++stop;] The characters passed over,
    and the final [stop]. *)
Fixpoint find_stop (sep : ascii) (stop : string) : string * string :=
  match stop with
  | EmptyString => (EmptyString, EmptyString)
  | String c p =>
      if decide (c = NUL) then (EmptyString, stop)
      else if decide (c = sep) then (EmptyString, stop)
      else let '(passed, stop') := find_stop sep p in (String c passed, stop')
  end.

(** The [while( ! finished )] loop of [parse_path], at most [n] times. *)
Fixpoint parse_loop (n : nat) (sep : ascii) (start : string)
    (vec : list string) : scan (list string) :=
  match n with
  | O => Unfinished
  | S n' =>
      match skip_seps sep start with
      | Returns start1 =>
          match start1 with
          | EmptyString => Returns vec                       (* [! *start]: break *)
          | String c p =>
              if decide (c = NUL) then Returns vec           (* [! *start]: break *)
              else
                let '(passed, stop) := find_stop sep p in    (* [stop = start + 1] *)
                parse_loop n' sep stop (vec ++ [String c passed])
          end
      | PastEnd => PastEnd
      | Unfinished => Unfinished
      end
  end.

(** [parse_path( path, vec, sep )]; [path = None] is the null pointer. The
    result is [vec] after the call. Every turn of the loop passes over a
    character, so one turn more than [path] has characters is enough. *)
Definition parse_path (path : option string) (vec : list string)
    (sep : ascii) : scan (list string) :=
  match path with
  | None => Returns vec
  | Some p =>
      if decide (deref p = NUL) then Returns vec
      else parse_loop (S (String.length p)) sep p vec
  end.

(** ** The environment and the file system *)

Definition mode_t : Type := Z.

(** [struct stat], of which the program reads [st_mode] only. *)
Record stat_buf : Type := { st_mode : mode_t }.

(** The file type bits of [st_mode] and the macro [S_ISDIR] of
    [<sys/stat.h>], in their traditional encoding. *)
Definition S_IFMT : mode_t := 61440%Z.    (* 0170000 *)
Definition S_IFDIR : mode_t := 16384%Z.   (* 0040000 *)
Definition S_ISDIR (m : mode_t) : bool := bool_decide (Z.land m S_IFMT = S_IFDIR).

(** What the process finds around it: its environment variables, what
    [stat] answers for a path name ([None] when it returns -1: no such
    file, a component that is not a directory, search permission denied),
    and whether [getopt] permutes the command line (as the GNU C library
    does unless POSIXLY_CORRECT is set) or stops at the first argument
    that is not an option (as POSIX specifies). *)
Record World : Type := {
  environ : gmap string string;
  stat_of : string → option stat_buf;
  getopt_permutes : bool
}.

(** [getenv( name )]; [None] is the null pointer. *)
Definition getenv (w : World) (name : string) : M (option string) :=
  sys (sys_getenv name) (environ w !! name).

(** [stat( pathname, &buf )]; [None] when it does not return 0. *)
Definition stat (w : World) (pathname : string) : M (option stat_buf) :=
  sys (sys_stat pathname) (stat_of w pathname).

(** [is_dir( dirname )] *)
Definition is_dir (w : World) (dirname : string) : M bool :=
  r ← stat w dirname;
  match r with
  | Some buf => mret (S_ISDIR (st_mode buf))
  | None => mret false   (* Doesn't exist, or isn't a directory, or isn't accessible *)
  end.

(** ** The assembler: [build_path] *)

Record PathArgs : Type := {
  arg_vec : list string;   (* individual paths from command line *)
  sep : ascii;             (* character used to separate paths *)
  allow_dups : bool;       (* If true, allow duplicates *)
  force : bool;            (* If true, don't check for existence *)
  help : bool;             (* If true, display help text only *)
  expand : bool            (* If true, expand tilde to home directory *)
}.

(** [path_args] once [arg_vec] holds [vec]. *)
Definition with_arg_vec (path_args : PathArgs) (vec : list string) : PathArgs :=
  {| arg_vec := vec; sep := sep path_args;
     allow_dups := allow_dups path_args; force := force path_args;
     help := help path_args; expand := expand path_args |}.

(** The variables of [build_path] that live across the turns of its loop. *)
Record Loop : Type := {
  path : string;
  dir_set : gset string;
  home : option string     (* [const char * home]; [None] is [NULL] *)
}.

(** Line 145: [path_args.expand && '~' == curr_path.at( 0 ) && '/' == curr_path.at( 1 )] *)
Definition wants_home (path_args : PathArgs) (curr_path : string) : M bool :=
  if expand path_args then
    c0 ← Str.at_ curr_path 0;
    if decide ("~"%char = c0) then
      c1 ← Str.at_ curr_path 1;
      mret (bool_decide ("/"%char = c1))
    else mret false
  else mret false.

(** Lines 149-156: replace the tilde with the user's home directory.
    Gives [curr_path] and [home] afterwards. *)
Definition replace_tilde (w : World) (home0 : option string) (curr_path : string)
    : M (string * option string) :=
  home1 ← match home0 with
          | None => getenv w "HOME"
          | Some h => mret (Some h)
          end;
  match home1 with
  | Some h => mret (Str.insert_front (Str.erase_first curr_path) h, home1)
  | None => mret (curr_path, home1)
  end.

(** Line 159: [! path_args.force && '/' == curr_path.at( 0 )] *)
Definition wants_check (path_args : PathArgs) (curr_path : string) : M bool :=
  if force path_args then mret false
  else
    c0 ← Str.at_ curr_path 0;
    mret (bool_decide ("/"%char = c0)).

(** One turn of the loop of [build_path], for the element [*iter]. *)
Definition build_step (path_args : PathArgs) (w : World) (st : Loop)
    (tok : string) : M Loop :=
  let curr_path := tok in
  tilde ← wants_home path_args curr_path;
  '(curr_path, home1) ←
    (if tilde : bool then replace_tilde w (home st) curr_path
     else mret (curr_path, home st));
  check ← wants_check path_args curr_path;
  missing ← (if check : bool then d ← is_dir w curr_path; mret (negb d)
             else mret false);
  if missing : bool then
    (* Skip this entry and go on to the next one *)
    mret {| path := path st; dir_set := dir_set st; home := home1 |}
  else if negb (allow_dups path_args) && bool_decide (curr_path ∈ dir_set st) then
    (* We already included this one; skip it *)
    mret {| path := path st; dir_set := dir_set st; home := home1 |}
  else
    let dir_set1 :=
      if allow_dups path_args then dir_set st else {[ curr_path ]} ∪ dir_set st in
    let path1 :=
      if Str.empty (path st) then path st else Str.push_back (path st) (sep path_args) in
    mret {| path := path1 +:+ curr_path; dir_set := dir_set1; home := home1 |}.

(** The [while( iter != end )] loop. *)
Fixpoint build_loop (path_args : PathArgs) (w : World) (iter : list string)
    (st : Loop) : M Loop :=
  match iter with
  | [] => mret st
  | tok :: iter' =>
      st' ← build_step path_args w st tok;
      build_loop path_args w iter' st'
  end.

(** [build_path( path_args, path )]: the value of [path] on return. *)
Definition build_path (path_args : PathArgs) (w : World) : M string :=
  st ← build_loop path_args w (arg_vec path_args)
         {| path := EmptyString; dir_set := ∅; home := None |};
  mret (path st).

(** ** The command line: [getopt] and [get_opts] *)

Definition DEFAULT_SEP : ascii := ":"%char.   (* Separator used to separate directory paths *)

Definition optstring : string := ":dfhs:x".

(** What a call of [getopt] that does not return -1 leaves behind: its
    return value, and the globals [optarg] and [optopt] (meaningful only
    where [getopt] sets them). *)
Record getopt_ret : Type := {
  opt : ascii;
  optarg : string;
  optopt : ascii
}.

(** Whether the option string [os] has the option character [c], and if
    so whether a colon follows it there. *)
Fixpoint find_opt (c : ascii) (os : string) : option bool :=
  match os with
  | EmptyString => None
  | String o os' =>
      if decide (o = c) then Some (bool_decide (deref os' = ":"%char))
      else find_opt c os'
  end.

(** A colon is never an option character. *)
Definition declared (c : ascii) : option bool :=
  if decide (c = ":"%char) then None else find_opt c optstring.

(** The calls of [getopt] that consume the option characters [cs] of one
    argument [-cs]; [next] is the argument after it, if any. Gives what
    the calls return, and whether [next] was taken as an option-argument.
    The option string starts with a colon, so a missing option-argument
    is reported by returning a colon. *)
Fixpoint getopt_cluster (cs : string) (next : option string)
    : list getopt_ret * bool :=
  match cs with
  | EmptyString => ([], false)
  | String c cs' =>
      match declared c with
      | None =>
          let '(rs, used) := getopt_cluster cs' next in
          ({| opt := "?"%char; optarg := EmptyString; optopt := c |} :: rs, used)
      | Some false =>
          let '(rs, used) := getopt_cluster cs' next in
          ({| opt := c; optarg := EmptyString; optopt := NUL |} :: rs, used)
      | Some true =>
          match cs', next with
          | String _ _, _ => ([{| opt := c; optarg := cs'; optopt := NUL |}], false)
          | EmptyString, Some a => ([{| opt := c; optarg := a; optopt := NUL |}], true)
          | EmptyString, None =>
              ([{| opt := ":"%char; optarg := EmptyString; optopt := c |}], false)
          end
      end
  end.

(** An argument that holds options: a dash followed by something. *)
Definition is_option_arg (a : string) : bool :=
  match a with
  | String c (String _ _) => bool_decide (c = "-"%char)
  | _ => false
  end.

(** All the calls of [getopt( argc, argv, optstring )] up to the one that
    returns -1, over the arguments after [argv[ 0 ]]: what they return,
    and the operands that [argv + optind] points at afterwards. *)
Fixpoint getopt_scan (permute : bool) (args : list string)
    : list getopt_ret * list string :=
  match args with
  | [] => ([], [])
  | a :: rest =>
      if decide (a = "--") then ([], rest)
      else if is_option_arg a then
        let '(rs, used) := getopt_cluster (Str.erase_first a) (head rest) in
        let '(rs', operands) :=
          match rest with
          | [] => ([], [])
          | _ :: rest' =>
              if used : bool then getopt_scan permute rest'
              else getopt_scan permute rest
          end in
        (rs ++ rs', operands)
      else if permute then
        let '(rs, operands) := getopt_scan permute rest in (rs, a :: operands)
      else ([], args)
  end.

(** The body of the [switch( opt )] of [get_opts], on [path_args] and
    [sep_found]. *)
Definition get_opts_case (path_args : PathArgs) (sep_found : bool)
    (r : getopt_ret) : result (PathArgs * bool) :=
  match opt r with
  | "d" =>
      Ok ({| arg_vec := arg_vec path_args; sep := sep path_args;
             allow_dups := true; force := force path_args;
             help := help path_args; expand := expand path_args |}, sep_found)
  | "f" =>
      Ok ({| arg_vec := arg_vec path_args; sep := sep path_args;
             allow_dups := allow_dups path_args; force := true;
             help := help path_args; expand := expand path_args |}, sep_found)
  | "h" =>
      Ok ({| arg_vec := arg_vec path_args; sep := sep path_args;
             allow_dups := allow_dups path_args; force := force path_args;
             help := true; expand := expand path_args |}, sep_found)
  | "s" =>
      if decide (NUL = deref (optarg r)) then
        Throw (runtime_error "Specified separator is an empty string")
      else if decide (NUL ≠ deref (Str.erase_first (optarg r))) then
        Throw (runtime_error "Specified separator consists of multiple characters")
      else
        let sep1 := deref (optarg r) in
        if sep_found && bool_decide (sep1 ≠ sep path_args) then
          Throw (runtime_error "Conflicting specifications for separator character")
        else
          Ok ({| arg_vec := arg_vec path_args; sep := sep1;
                 allow_dups := allow_dups path_args; force := force path_args;
                 help := help path_args; expand := expand path_args |}, true)
  | "x" =>
      Ok ({| arg_vec := arg_vec path_args; sep := sep path_args;
             allow_dups := allow_dups path_args; force := force path_args;
             help := help path_args; expand := true |}, sep_found)
  | ":" =>
      Throw (runtime_error
        ("Required argument missing on -" +:+ String (optopt r) " option"))
  | "?" =>
      Throw (runtime_error
        ("Invalid option -" +:+ String (optopt r) " on command line"))
  | _ =>
      Throw (runtime_error
        ("Internal error: unexpected value '" +:+ String (optopt r) "' of optopt"))
  end%char.

(** The [while( ( opt = getopt( ... ) ) != -1 )] loop, over what the calls
    return. *)
Fixpoint get_opts_loop (path_args : PathArgs) (sep_found : bool)
    (rs : list getopt_ret) : result PathArgs :=
  match rs with
  | [] => Ok path_args
  | r :: rs' =>
      '(path_args1, sep_found1) ← get_opts_case path_args sep_found r;
      get_opts_loop path_args1 sep_found1 rs'
  end.

(** [get_opts( argc, argv, path_args )] for a [path_args] that [main] has
    just constructed: [path_args] on return, and the operands left at
    [argv + optind]. *)
Definition get_opts (w : World) (args : list string)
    : result (PathArgs * list string) :=
  let '(rs, operands) := getopt_scan (getopt_permutes w) args in
  path_args ← get_opts_loop
    {| arg_vec := []; sep := DEFAULT_SEP; allow_dups := false; force := false;
       help := false; expand := false |} false rs;
  mret (path_args, operands).

(** ** [main] *)

Definition nl : string := String "010"%char EmptyString.   (* ['\n'] *)

(** [basename] of [<libgen.h>], as POSIX describes it: the last component
    of the path name; [last] is the last component completed so far and
    [cur] the one being read. *)
Fixpoint basename_go (last cur : string) (p : string) : string :=
  match p with
  | EmptyString => if Str.empty cur then last else cur
  | String c p' =>
      if decide (c = "/"%char)
      then basename_go (if Str.empty cur then last else cur) EmptyString p'
      else basename_go last (Str.push_back cur c) p'
  end.

Definition basename (p : string) : string :=
  if Str.empty p then "."
  else
    let b := basename_go EmptyString EmptyString p in
    if Str.empty b then "/" else b.

(** What [show_help( name )] writes to [cout]. *)
Definition show_help (name : string) : string :=
  "Usaage: " +:+ name +:+ " [OPTION...] PATH..." +:+ nl +:+ nl +:+
  "Concatenate directory paths into a list.  Each PATH is a list" +:+ nl +:+
  "of one or more directory paths, separated by a designated" +:+ nl +:+
  "separator character (see -s option)." +:+ nl +:+ nl +:+
  "  -d  allow duplicate paths" +:+ nl +:+
  "  -f  include a path even if the directory doesn't exist" +:+ nl +:+
  "  -h  display this help text" +:+ nl +:+
  "  -s  specify a character used to separate paths" +:+ nl +:+
  "      (defaults to '" +:+ String DEFAULT_SEP "')" +:+ nl +:+
  "  -x  replace tildes ('~') with the user's home directory" +:+ nl +:+ nl +:+
  "Report " +:+ name +:+ " bugs to mck9@swbell.net" +:+ nl.

(** The [while( *argp )] loop of [main]: every operand goes through
    [parse_path], which appends to [path_args.arg_vec]. *)
Fixpoint parse_operands (argp : list string) (vec : list string) (sep : ascii)
    : scan (list string) :=
  match argp with
  | [] => Returns vec
  | a :: argp' =>
      match parse_path (Some a) vec sep with
      | Returns vec' => parse_operands argp' vec' sep
      | PastEnd => PastEnd
      | Unfinished => Unfinished
      end
  end.

(** What one of the two handlers of [main] writes to [cerr]: the program
    name and the exception caught, as a [runtime_error] or as any other
    [exception]. *)
Inductive report : Type :=
| report_runtime_error (name what : string)
| report_exception (name : string) (e : exn).

(** What a run of the program leaves: its exit code, what it wrote to
    [cout] and to [cerr], and the calls it made. *)
Record Outcome : Type := {
  rc : Z;
  cout : string;
  cerr : option report;
  calls : list syscall
}.

(** The two [catch] clauses of [main]. *)
Definition caught (argv0 : string) (e : exn) (tr : list syscall) : Outcome :=
  {| rc := 1; cout := EmptyString;
     cerr := Some match e with
                  | runtime_error what => report_runtime_error (basename argv0) what
                  | _ => report_exception (basename argv0) e
                  end;
     calls := tr |}.

(** [main( argc, argv )] for [argv = argv0 :: args]. *)
Definition main (w : World) (argv0 : string) (args : list string) : scan Outcome :=
  match get_opts w args with
  | Throw e => Returns (caught argv0 e [])
  | Ok (path_args, operands) =>
      if help path_args then
        Returns {| rc := 0; cout := show_help (basename argv0); cerr := None; calls := [] |}
      else
        match parse_operands operands (arg_vec path_args) (sep path_args) with
        | Returns vec =>
            match build_path (with_arg_vec path_args vec) w [] with
            | (Ok path, tr) =>
                Returns {| rc := 0; cout := path +:+ nl; cerr := None; calls := tr |}
            | (Throw e, tr) => Returns (caught argv0 e tr)
            end
        | PastEnd => PastEnd
        | Unfinished => Unfinished
        end
  end.

(** ** Vocabulary of the properties *)

(** [s] starts with the character [c]. *)
Definition starts_with (c : ascii) (s : string) : bool :=
  match s with
  | EmptyString => false
  | String d _ => bool_decide (d = c)
  end.

(** [s] ends with the character [c]. *)
Fixpoint ends_with (c : ascii) (s : string) : bool :=
  match s with
  | EmptyString => false
  | String d s' =>
      match s' with
      | EmptyString => bool_decide (d = c)
      | String _ _ => ends_with c s'
      end
  end.

(** [s] has two consecutive characters [c]. *)
Fixpoint doubled (c : ascii) (s : string) : bool :=
  match s with
  | EmptyString => false
  | String d s' => bool_decide (d = c) && starts_with c s' || doubled c s'
  end.

(** No leading, trailing or doubled separator. *)
Definition tidy (sep : ascii) (s : string) : bool :=
  negb (starts_with sep s) && negb (ends_with sep s) && negb (doubled sep s).

(** The pieces of [s] between separators, empty ones included. *)
Fixpoint pieces (sep : ascii) (s : string) : list string :=
  match s with
  | EmptyString => [EmptyString]
  | String c s' =>
      if decide (c = sep) then EmptyString :: pieces sep s'
      else
        match pieces sep s' with
        | [] => [String c EmptyString]
        | x :: l => String c x :: l
        end
  end.

(** The tokens of a raw input: the pieces of the C string that are not
    empty. *)
Definition tokens_of (sep : ascii) (p : string) : list string :=
  filter (fun t => t ≠ EmptyString) (pieces sep (c_str p)).

(** [s] starts with the two characters [~/]. *)
Definition tilde_slash (s : string) : bool :=
  match s with
  | String c (String d _) => bool_decide (c = "~"%char) && bool_decide (d = "/"%char)
  | _ => false
  end.

(** The value of HOME, as a C string, if it is set. *)
Definition home_dir (w : World) : option string := c_str <$> environ w !! "HOME".

(** The token after home-directory expansion. *)
Definition expanded (path_args : PathArgs) (w : World) (tok : string) : string :=
  if expand path_args && tilde_slash tok then
    match home_dir w with
    | Some h => h +:+ Str.erase_first tok
    | None => tok
    end
  else tok.

(** An absolute path starts at the root directory. *)
Definition absolute (v : string) : bool := starts_with "/"%char v.

(** [stat] finds a directory at [v]. *)
Definition is_directory (w : World) (v : string) : bool :=
  match stat_of w v with
  | Some buf => S_ISDIR (st_mode buf)
  | None => false
  end.

(** What the existence check lets through. *)
Definition passes (path_args : PathArgs) (w : World) (v : string) : bool :=
  force path_args || negb (absolute v) || is_directory w v.

(** The list without the elements that occurred before: the head, then
    the first occurrences of the rest that differ from it. *)
Fixpoint first_occurrences (l : list string) : list string :=
  match l with
  | [] => []
  | x :: l' => x :: filter (fun y => y ≠ x) (first_occurrences l')
  end.

(** The entries that a run over the tokens [toks] puts into the path
    list, in order. *)
Definition entries (path_args : PathArgs) (w : World) (toks : list string)
    : list string :=
  let vs := filter (fun v => passes path_args w v = true)
                   (expanded path_args w <$> toks) in
  if allow_dups path_args then vs else first_occurrences vs.

(** The entries joined by single separators. *)
Definition joined (sep : ascii) (l : list string) : string :=
  String.concat (String sep EmptyString) l.

(** The tokens that make [build_path] throw: [at( 0 )] is out of range
    for an empty token, and [at( 1 )] for the token that is just a tilde. *)
Definition throws (path_args : PathArgs) (tok : string) : bool :=
  (expand path_args || negb (force path_args)) && bool_decide (tok = EmptyString)
  || expand path_args && bool_decide (tok = "~").

(** A token as the tokenizer makes them: not empty, and without the
    separator and without NUL. *)
Definition good_token (sep : ascii) (t : string) : Prop :=
  t ≠ EmptyString ∧ occurs sep t = false ∧ occurs NUL t = false.

(** Every entry preceded by a separator. *)
Definition sep_join (sep : ascii) (l : list string) : string :=
  foldr (fun t acc => String sep (t +:+ acc)) EmptyString l.

(** Lines 183-186: [path] after [curr_path] has been appended to it. *)
Definition append_entry (sep : ascii) (path curr_path : string) : string :=
  (if Str.empty path then path else Str.push_back path sep) +:+ curr_path.

(** The cached [home] is null or what [getenv] answers. *)
Definition home_cached (w : World) (home0 : option string) : Prop :=
  home0 = None ∨ home0 = environ w !! "HOME".

(** [home] after a turn of the loop on [tok]. *)
Definition home_after (path_args : PathArgs) (w : World) (home0 : option string)
    (tok : string) : option string :=
  if expand path_args && tilde_slash tok then
    match home0 with
    | None => environ w !! "HOME"
    | Some h => Some h
    end
  else home0.

(** The calls of a turn of the loop on [tok]. *)
Definition step_calls (path_args : PathArgs) (w : World) (home0 : option string)
    (tok : string) : list syscall :=
  (if expand path_args && tilde_slash tok then
     match home0 with
     | None => [sys_getenv "HOME"]
     | Some _ => []
     end
   else [])
  ++ (if negb (force path_args) && absolute (expanded path_args w tok)
      then [sys_stat (expanded path_args w tok)] else []).

(** Whether a turn of the loop on [tok] appends an entry. *)
Definition appends (path_args : PathArgs) (w : World) (seen : gset string)
    (tok : string) : bool :=
  passes path_args w (expanded path_args w tok)
  && (allow_dups path_args || bool_decide (expanded path_args w tok ∉ seen)).

(** The variables after a turn of the loop on [tok]. *)
Definition step_spec (path_args : PathArgs) (w : World) (st : Loop)
    (tok : string) : Loop :=
  let v := expanded path_args w tok in
  if appends path_args w (dir_set st) tok then
    {| path := append_entry (sep path_args) (path st) v;
       dir_set := if allow_dups path_args then dir_set st else {[ v ]} ∪ dir_set st;
       home := home_after path_args w (home st) tok |}
  else
    {| path := path st; dir_set := dir_set st;
       home := home_after path_args w (home st) tok |}.

(** The calls of the loop over [toks]. *)
Fixpoint loop_calls (path_args : PathArgs) (w : World) (home0 : option string)
    (toks : list string) : list syscall :=
  match toks with
  | [] => []
  | tok :: toks' =>
      step_calls path_args w home0 tok
      ++ loop_calls path_args w (home_after path_args w home0 tok) toks'
  end.

(** The entries that the loop over [toks] appends when [seen] holds the
    entries appended before. *)
Fixpoint kept (path_args : PathArgs) (w : World) (seen : gset string)
    (toks : list string) : list string :=
  match toks with
  | [] => []
  | tok :: toks' =>
      let v := expanded path_args w tok in
      if appends path_args w seen tok then
        v :: kept path_args w (if allow_dups path_args then seen else {[ v ]} ∪ seen) toks'
      else kept path_args w seen toks'
  end.

(** [path_args] with another [expand]. *)
Definition with_expand (path_args : PathArgs) (b : bool) : PathArgs :=
  {| arg_vec := arg_vec path_args; sep := sep path_args;
     allow_dups := allow_dups path_args; force := force path_args;
     help := help path_args; expand := b |}.

(** An entry that can stand in a tidy path list. *)
Definition tidy_entry (sep : ascii) (v : string) : Prop :=
  v ≠ EmptyString ∧ tidy sep v = true.

(** The values that [getopt] can return for [optstring], other than -1. *)
Definition getopt_values : list ascii := ["d"; "f"; "h"; "s"; "x"; ":"; "?"]%char.

(** [s] without the characters [c]. *)
Fixpoint without (c : ascii) (s : string) : string :=
  match s with
  | EmptyString => EmptyString
  | String d s' => if decide (d = c) then without c s' else String d (without c s')
  end.

(** The tokens of the operands, in order. *)
Definition operand_tokens (sep : ascii) (operands : list string) : list string :=
  concat (tokens_of sep <$> operands).


Definition with_allow_dups (path_args : PathArgs) (b : bool) : PathArgs :=
  {| arg_vec := arg_vec path_args; sep := sep path_args;
     allow_dups := b; force := force path_args;
     help := help path_args; expand := expand path_args |}.

(** [getopt] has returned [c] at some call. *)
Definition delivered (c : ascii) (rs : list getopt_ret) : Prop :=
  ∃ r, r ∈ rs ∧ opt r = c.

(** What [getopt] returns for an option that [get_opts] rejects whatever
    came before: not one of the five options, or an [-s] whose argument is
    empty or longer than a character. *)
Definition rejected (r : getopt_ret) : Prop :=
  opt r ∉ ["d"; "f"; "h"; "s"; "x"]%char
  ∨ opt r = "s"%char
    ∧ (deref (optarg r) = NUL ∨ deref (Str.erase_first (optarg r)) ≠ NUL).

(** [path_args] as [get_opts] sets it up before it looks at the options. *)
Definition default_args : PathArgs :=
  {| arg_vec := []; sep := DEFAULT_SEP; allow_dups := false; force := false;
     help := false; expand := false |}.

(** A run with [-x] that meets a token that is just a tilde, and a run
    with [-d] and [-f]. *)
Definition sample_tilde_args : PathArgs :=
  {| arg_vec := ["/usr/bin"; "~/bin"; "~"; "/no/such/dir"];
     sep := ":"; allow_dups := false; force := false; help := false;
     expand := true |}.

Definition sample_plain_args : PathArgs :=
  {| arg_vec := ["/usr/bin"; "~"; "/no/such/dir"; "/usr/bin"];
     sep := ":"; allow_dups := true; force := true; help := false;
     expand := false |}.

(** The number of calls [getenv( "HOME" )] in a trace. *)
Definition getenv_count (cs : list syscall) : nat :=
  length (filter (fun c => c = sys_getenv "HOME") cs).

(** A run with [-x] over two tokens that begin with a tilde and a slash. *)
Definition sample_home_args : PathArgs :=
  {| arg_vec := ["~/bin"; "~/lib"; "/usr/bin"];
     sep := ":"; allow_dups := false; force := false; help := false;
     expand := true |}.

(** What [get_opts] makes of [-dx lib -s; -d -s ; /usr/bin]. *)
Definition sample_opts : PathArgs :=
  {| arg_vec := []; sep := ";"; allow_dups := true; force := false;
     help := false; expand := true |}.

(** The messages of the [runtime_error]s that [get_opts] throws for what
    [getopt] can return. *)
Definition option_error (what : string) : Prop :=
  what = "Specified separator is an empty string"
  ∨ what = "Specified separator consists of multiple characters"
  ∨ what = "Conflicting specifications for separator character"
  ∨ (∃ c, what = "Required argument missing on -" +:+ String c " option")
  ∨ (∃ c, what = "Invalid option -" +:+ String c " on command line").

(** What [getopt] returns for a flag, or for an [-s] whose argument is the
    one character [c]. *)
Definition accepted (c : ascii) (r : getopt_ret) : Prop :=
  opt r ∈ ["d"; "f"; "h"; "x"]%char
  ∨ opt r = "s"%char ∧ c_str (optarg r) = String c EmptyString.

(** What [get_opts] makes of [-x /usr/bin:~/bin lib]. *)
Definition sample_x_opts : PathArgs :=
  {| arg_vec := []; sep := ":"; allow_dups := false; force := false;
     help := false; expand := true |}.

(** ** Worlds and runs to try the model on *)

Definition dir_buf : stat_buf := {| st_mode := 16877%Z |}.    (* 040755 *)
Definition file_buf : stat_buf := {| st_mode := 33188%Z |}.   (* 0100644 *)

(** A machine with a few directories and one regular file, where HOME is
    /home/alice. *)
Definition alice : World :=
  {| environ := {[ "HOME" := "/home/alice" ]};
     stat_of := fun p =>
       if bool_decide (p ∈ ["/"; "/usr/bin"; "/usr/local/bin"; "/home/alice";
                            "/home/alice/bin"; "/a"; "/b"])
       then Some dir_buf
       else if bool_decide (p = "/etc/passwd") then Some file_buf
       else None;
     getopt_permutes := true |}.

(** A machine where the name of the home directory has colons in it. *)
Definition colons : World :=
  {| environ := {[ "HOME" := "/srv/a::b" ]};
     stat_of := fun p =>
       if bool_decide (p ∈ ["/"; "/srv"; "/srv/a::b"; "/srv/a::b/bin"])
       then Some dir_buf else None;
     getopt_permutes := true |}.

(** A machine where HOME is set to a path that begins with a tilde. *)
Definition nested : World :=
  {| environ := {[ "HOME" := "~/x" ]};
     stat_of := stat_of alice;
     getopt_permutes := true |}.

(** The same machine without HOME in the environment. *)
Definition homeless : World :=
  {| environ := ∅; stat_of := stat_of alice; getopt_permutes := true |}.

(** Three operands with stray separators, and the configuration of a run
    on them with [-x]. *)
Definition sample_operands : list string :=
  ["/usr/bin::/usr/local/bin:"; "~/bin:/usr/bin"; ":/no/such/dir:lib"].

Definition sample_args : PathArgs :=
  {| arg_vec := ["/usr/bin"; "/usr/local/bin"; "~/bin"; "/usr/bin";
                 "/no/such/dir"; "lib"];
     sep := ":"; allow_dups := false; force := false; help := false;
     expand := true |}.

(** The variables of the loop of [build_path] after a first entry. *)
Definition sample_loop : Loop :=
  {| path := "/usr/bin"; dir_set := {[ "/usr/bin" ]}; home := None |}.

(** Unfolding the monad of system calls. *)
Ltac unfold_M :=
  unfold mbind, mret, M_bind, M_ret, throw, sys in *; simpl in *.

(** * Properties *)

(** ** Runs of the model *)

Example parse_path_ex1 :
  parse_path (Some "::/usr/bin:::/bin:") [] ":" = Returns ["/usr/bin"; "/bin"].
Proof. reflexivity. Qed.

Example parse_path_ex2 : parse_path (Some "a") ["x"] NUL = PastEnd.
Proof. reflexivity. Qed.

Example scenario_dedup :
  main alice "catpath" ["/usr/bin:/usr/local/bin"; "/usr/bin"]
  = Returns {| rc := 0; cout := "/usr/bin:/usr/local/bin" +:+ nl; cerr := None;
               calls := [sys_stat "/usr/bin"; sys_stat "/usr/local/bin";
                         sys_stat "/usr/bin"] |}.
Proof. vm_compute. reflexivity. Qed.

Example scenario_missing :
  cout <$> (match main alice "catpath" ["/no/such/dir:/usr/bin:/etc/passwd"] with
            | Returns o => Some o | _ => None end)
  = Some ("/usr/bin" +:+ nl).
Proof. vm_compute. reflexivity. Qed.

Example scenario_home :
  cout <$> (match main alice "catpath" ["-x"; "~/bin"] with
            | Returns o => Some o | _ => None end)
  = Some ("/home/alice/bin" +:+ nl).
Proof. vm_compute. reflexivity. Qed.

Example scenario_semicolon :
  cout <$> (match main alice "catpath" ["-s"; ";"; "/a;/b;/a"] with
            | Returns o => Some o | _ => None end)
  = Some ("/a;/b" +:+ nl).
Proof. vm_compute. reflexivity. Qed.

Example scenario_help :
  main alice "/usr/local/bin/catpath" ["-h"; "/usr/bin"]
  = Returns {| rc := 0; cout := show_help "catpath"; cerr := None; calls := [] |}.
Proof. vm_compute. reflexivity. Qed.

Example scenario_home_twice :
  main alice "catpath" ["-x"; "~/bin:/home/alice/bin:~/bin"]
  = Returns {| rc := 0; cout := "/home/alice/bin" +:+ nl; cerr := None;
               calls := [sys_getenv "HOME"; sys_stat "/home/alice/bin";
                         sys_stat "/home/alice/bin"; sys_stat "/home/alice/bin"] |}.
Proof. vm_compute. reflexivity. Qed.

Example scenario_home_unset :
  main homeless "catpath" ["-x"; "~/bin:/usr/bin"]
  = Returns {| rc := 0; cout := "~/bin:/usr/bin" +:+ nl; cerr := None;
               calls := [sys_getenv "HOME"; sys_stat "/usr/bin"] |}.
Proof. vm_compute. reflexivity. Qed.

Example scenario_conflict :
  main alice "catpath" ["-s"; ":"; "-s"; ";"; "/usr/bin"]
  = Returns {| rc := 1; cout := EmptyString;
               cerr := Some (report_runtime_error "catpath"
                               "Conflicting specifications for separator character");
               calls := [] |}.
Proof. vm_compute. reflexivity. Qed.

Example scenario_no_operands :
  main alice "catpath" ["-f"]
  = Returns {| rc := 0; cout := nl; cerr := None; calls := [] |}.
Proof. vm_compute. reflexivity. Qed.

Example pieces_ex : pieces ":" "::/usr/bin:::/bin:"
  = [EmptyString; EmptyString; "/usr/bin"; EmptyString; EmptyString; "/bin"; EmptyString].
Proof. reflexivity. Qed.

Example scenario_tilde :
  main alice "catpath" ["-x"; "~"]
  = Returns {| rc := 1; cout := EmptyString;
               cerr := Some (report_exception "catpath" (out_of_range 1 1));
               calls := [] |}.
Proof. vm_compute. reflexivity. Qed.

(** ** Strings *)

Lemma str_app_nil_l (s : string) : EmptyString +:+ s = s.
Proof. reflexivity. Qed.

Lemma str_app_cons (c : ascii) (s t : string) : String c s +:+ t = String c (s +:+ t).
Proof. reflexivity. Qed.

Lemma str_app_nil_r (s : string) : s +:+ EmptyString = s.
Proof. induction s as [|c s IH]; [done|]. by rewrite str_app_cons, IH. Qed.

Lemma str_app_assoc (s t u : string) : (s +:+ t) +:+ u = s +:+ (t +:+ u).
Proof. induction s as [|c s IH]; [done|]. by rewrite !str_app_cons, IH. Qed.

Lemma str_length_app (s t : string) :
  String.length (s +:+ t) = String.length s + String.length t.
Proof. induction s as [|c s IH]; [done|]. rewrite str_app_cons. simpl. by rewrite IH. Qed.

Lemma empty_true (s : string) : Str.empty s = true ↔ s = EmptyString.
Proof. by destruct s. Qed.

Lemma empty_false (s : string) : Str.empty s = false ↔ s ≠ EmptyString.
Proof. by destruct s. Qed.

Lemma occurs_app (c : ascii) (s t : string) :
  occurs c (s +:+ t) = occurs c s || occurs c t.
Proof.
  induction s as [|d s IH]; [done|].
  rewrite str_app_cons. simpl. by rewrite IH, orb_assoc.
Qed.

Lemma starts_with_occurs (c : ascii) (s : string) :
  occurs c s = false → starts_with c s = false.
Proof. destruct s as [|d s]; [done|]. simpl. by intros [? ?]%orb_false_elim. Qed.

(** ** The tokenizer *)

Lemma skip_seps_returns (sep : ascii) (start : string) :
  sep ≠ NUL →
  ∃ start1, skip_seps sep start = Returns start1
            ∧ starts_with sep start1 = false
            ∧ String.length start1 ≤ String.length start.
Proof.
  intros Hsep. induction start as [|c p IH]; simpl.
  - rewrite decide_False by done. by exists EmptyString.
  - destruct (decide (sep = c)) as [->|Hne].
    + destruct IH as (start1 & ? & ? & ?). exists start1. split_and!; [done..|lia].
    + exists (String c p). split_and!; [done| |done].
      simpl. by rewrite bool_decide_eq_false.
Qed.

Lemma find_stop_spec (sep : ascii) (p passed stop : string) :
  find_stop sep p = (passed, stop) →
  p = passed +:+ stop ∧ occurs sep passed = false ∧ occurs NUL passed = false.
Proof.
  revert passed stop. induction p as [|c p IH]; intros passed stop; simpl.
  - by intros [= <- <-].
  - destruct (decide (c = NUL)); [by intros [= <- <-]|].
    destruct (decide (c = sep)); [by intros [= <- <-]|].
    destruct (find_stop sep p) as [passed' stop'] eqn:Hf. intros [= <- <-].
    destruct (IH _ _ eq_refl) as (-> & Hs & Hn).
    split_and!; [done|simpl..].
    + by rewrite Hs, bool_decide_eq_false_2.
    + by rewrite Hn, bool_decide_eq_false_2.
Qed.

Lemma parse_loop_returns (sep : ascii) :
  sep ≠ NUL →
  ∀ (n : nat) (start : string) (vec : list string),
    String.length start < n →
    ∃ toks, parse_loop n sep start vec = Returns (vec ++ toks)
            ∧ Forall (good_token sep) toks.
Proof.
  intros Hsep. induction n as [|n IH]; intros start vec Hn; [lia|]. simpl.
  destruct (skip_seps_returns sep start Hsep) as (start1 & -> & Hs & Hl).
  destruct start1 as [|c p].
  { exists []. by rewrite app_nil_r. }
  destruct (decide (c = NUL)) as [|Hc].
  { exists []. by rewrite app_nil_r. }
  destruct (find_stop sep p) as [passed stop] eqn:Hf.
  apply find_stop_spec in Hf as (-> & Hps & Hpn).
  simpl in Hl. rewrite str_length_app in Hl.
  destruct (IH stop (vec ++ [String c passed])) as (toks & -> & Htoks); [lia|].
  exists (String c passed :: toks). split.
  - by rewrite <-(assoc_L (++)).
  - constructor; [|done]. split_and!; [done|simpl..].
    + simpl in Hs. apply bool_decide_eq_false in Hs.
      by rewrite Hps, bool_decide_eq_false_2.
    + by rewrite Hpn, bool_decide_eq_false_2.
Qed.

Lemma parse_path_good (path : option string) (vec : list string) (sep : ascii) :
  sep ≠ NUL →
  ∃ toks, parse_path path vec sep = Returns (vec ++ toks)
          ∧ Forall (good_token sep) toks.
Proof.
  intros Hsep. destruct path as [p|]; unfold parse_path.
  - destruct (decide (deref p = NUL)).
    { exists []. by rewrite app_nil_r. }
    apply parse_loop_returns; [done|lia].
  - exists []. by rewrite app_nil_r.
Qed.

Lemma skip_seps_length (sep : ascii) (start start1 : string) :
  skip_seps sep start = Returns start1 →
  String.length start1 ≤ String.length start.
Proof.
  induction start as [|c p IH]; simpl.
  - destruct (decide (sep = NUL)); [done|]. by intros [= <-].
  - destruct (decide (sep = c)).
    + intros H. apply IH in H. lia.
    + by intros [= <-].
Qed.

Lemma skip_seps_finishes (sep : ascii) (start : string) :
  skip_seps sep start ≠ Unfinished.
Proof.
  induction start as [|c p IH]; simpl.
  - by destruct (decide (sep = NUL)).
  - by destruct (decide (sep = c)).
Qed.

(** The bound on the turns of the loop is never reached, whatever the
    separator. *)
Lemma parse_loop_finishes (sep : ascii) :
  ∀ (n : nat) (start : string) (vec : list string),
    String.length start < n → parse_loop n sep start vec ≠ Unfinished.
Proof.
  induction n as [|n IH]; intros start vec Hn; [lia|]. simpl.
  destruct (skip_seps sep start) as [start1| |] eqn:Hs; [|done|].
  - apply skip_seps_length in Hs. destruct start1 as [|c p]; [done|].
    destruct (decide (c = NUL)); [done|].
    destruct (find_stop sep p) as [passed stop] eqn:Hf.
    apply find_stop_spec in Hf as (-> & _ & _).
    simpl in Hs. rewrite str_length_app in Hs. apply IH. lia.
  - by apply skip_seps_finishes in Hs.
Qed.

Lemma parse_path_finishes (path : option string) (vec : list string) (sep : ascii) :
  parse_path path vec sep ≠ Unfinished.
Proof.
  destruct path as [p|]; unfold parse_path; [|done].
  destruct (decide (deref p = NUL)); [done|].
  apply parse_loop_finishes. lia.
Qed.

Lemma pieces_not_nil (sep : ascii) (s : string) : pieces sep s ≠ [].
Proof.
  destruct s as [|c s]; simpl; [done|].
  destruct (decide (c = sep)); [done|]. by destruct (pieces sep s).
Qed.

Lemma pieces_no_sep (sep : ascii) (s : string) :
  Forall (fun t => occurs sep t = false) (pieces sep s).
Proof.
  induction s as [|c s IH]; simpl; [by repeat constructor|].
  destruct (decide (c = sep)); [by constructor|].
  destruct IH as [|x l Hx Hl].
  - constructor; [|constructor]. simpl. by rewrite bool_decide_eq_false_2.
  - constructor; [|done]. simpl. by rewrite Hx, bool_decide_eq_false_2.
Qed.

Lemma tokens_of_sep (sep : ascii) (p : string) :
  sep ≠ NUL → tokens_of sep (String sep p) = tokens_of sep p.
Proof.
  intros Hsep. unfold tokens_of. simpl.
  rewrite decide_False by done. simpl. rewrite decide_True by done.
  by rewrite filter_cons_False by auto.
Qed.

Lemma tokens_of_skip_seps (sep : ascii) (start start1 : string) :
  sep ≠ NUL →
  skip_seps sep start = Returns start1 →
  tokens_of sep start = tokens_of sep start1.
Proof.
  intros Hsep. induction start as [|c p IH]; simpl.
  - rewrite decide_False by done. by intros [= <-].
  - destruct (decide (sep = c)) as [<-|].
    + intros H. rewrite tokens_of_sep by done. by apply IH.
    + by intros [= <-].
Qed.

(** The pieces of a string that starts with a token. *)
Lemma pieces_token (sep : ascii) (t stop : string) :
  occurs sep t = false →
  occurs NUL t = false →
  pieces sep (c_str (t +:+ stop))
  = match pieces sep (c_str stop) with
    | [] => [t]
    | x :: l => (t +:+ x) :: l
    end.
Proof.
  intros Hs Hn. induction t as [|c t IH].
  - rewrite str_app_nil_l.
    destruct (pieces sep (c_str stop)) eqn:Hp; [by apply pieces_not_nil in Hp|done].
  - rewrite str_app_cons. simpl in *.
    apply orb_false_elim in Hs as [Hc%bool_decide_eq_false Hs].
    apply orb_false_elim in Hn as [Hc'%bool_decide_eq_false Hn].
    rewrite decide_False by done. simpl. rewrite decide_False by done.
    rewrite IH by done. by destruct (pieces sep (c_str stop)).
Qed.

Lemma tokens_of_find_stop (sep c : ascii) (p passed stop : string) :
  sep ≠ NUL → c ≠ NUL → c ≠ sep →
  find_stop sep p = (passed, stop) →
  tokens_of sep (String c p) = String c passed :: tokens_of sep stop.
Proof.
  intros Hsep Hc Hcs Hf.
  assert (stop = EmptyString ∨ deref stop = NUL ∨ deref stop = sep) as Hstop.
  { revert passed stop Hf. induction p as [|d p IH]; intros passed stop; simpl.
    - intros [= <- <-]. by left.
    - destruct (decide (d = NUL)) as [->|]; [intros [= <- <-]; by auto|].
      destruct (decide (d = sep)) as [->|]; [intros [= <- <-]; by auto|].
      destruct (find_stop sep p) as [passed' stop'].
      intros [= <- <-]. by eapply IH. }
  apply find_stop_spec in Hf as (-> & Hs & Hn).
  unfold tokens_of.
  rewrite <-str_app_cons, pieces_token; last first.
  { simpl. by rewrite Hn, bool_decide_eq_false_2. }
  { simpl. by rewrite Hs, bool_decide_eq_false_2. }
  destruct Hstop as [->|[Hd|Hd]].
  - simpl. by rewrite str_app_nil_r.
  - destruct stop as [|d stop]; simpl in *.
    + by rewrite str_app_nil_r.
    + subst d. rewrite decide_True by done. simpl. by rewrite str_app_nil_r.
  - destruct stop as [|d stop]; simpl in *.
    + by rewrite str_app_nil_r.
    + subst d. rewrite decide_False by done. simpl. rewrite decide_True by done.
      rewrite str_app_nil_r, filter_cons_True by done.
      by rewrite (filter_cons_False _ EmptyString) by auto.
Qed.

Lemma parse_loop_tokens_of (sep : ascii) :
  sep ≠ NUL →
  ∀ (n : nat) (start : string) (vec : list string),
    String.length start < n →
    parse_loop n sep start vec = Returns (vec ++ tokens_of sep start).
Proof.
  intros Hsep. induction n as [|n IH]; intros start vec Hn; [lia|]. simpl.
  destruct (skip_seps_returns sep start Hsep) as (start1 & Hs & Hne & Hl).
  rewrite Hs, (tokens_of_skip_seps _ _ _ Hsep Hs).
  destruct start1 as [|c p].
  { by rewrite app_nil_r. }
  destruct (decide (c = NUL)) as [->|Hc].
  { unfold tokens_of. simpl. by rewrite app_nil_r. }
  destruct (find_stop sep p) as [passed stop] eqn:Hf.
  simpl in Hne. apply bool_decide_eq_false in Hne.
  rewrite (tokens_of_find_stop _ _ _ _ _ Hsep Hc Hne Hf).
  apply find_stop_spec in Hf as (-> & _ & _).
  simpl in Hl. rewrite str_length_app in Hl.
  rewrite IH by lia. by rewrite <-(assoc_L (++)).
Qed.

(** What the tokenizer appends: the pieces of the string between
    separators that are not empty. *)
Lemma parse_path_tokens_of (p : string) (vec : list string) (sep : ascii) :
  sep ≠ NUL →
  parse_path (Some p) vec sep = Returns (vec ++ tokens_of sep p).
Proof.
  intros Hsep. unfold parse_path.
  destruct (decide (deref p = NUL)) as [Hd|Hd].
  - destruct p as [|c p]; simpl in Hd.
    + by rewrite app_nil_r.
    + subst c. unfold tokens_of. simpl. by rewrite app_nil_r.
  - apply parse_loop_tokens_of; [done|lia].
Qed.

(** C6: for every raw input (null pointer included) and every separator
    that is a character of a string, [parse_path] returns the sequence it
    was given with tokens appended to it and nothing else changed; the
    tokens are the pieces of the input between separators that are not
    empty, so none of them is empty (nor holds a separator); and for the
    null pointer and for the empty string nothing is appended. *)
Theorem parse_path_appends_tokens (path : option string) (vec : list string)
    (sep : ascii) :
  sep ≠ NUL →
  ∃ toks, parse_path path vec sep = Returns (vec ++ toks)
          ∧ toks = from_option (tokens_of sep) [] path
          ∧ Forall (fun t => t ≠ EmptyString) toks
          ∧ Forall (fun t => occurs sep t = false) toks
          ∧ (path = None ∨ path = Some EmptyString → toks = []).
Proof.
  intros Hsep. destruct path as [p|].
  - exists (tokens_of sep p). split_and!.
    + by apply parse_path_tokens_of.
    + done.
    + apply Forall_forall. by intros t [? _]%list_elem_of_filter.
    + apply Forall_forall. intros t [_ Ht]%list_elem_of_filter.
      pose proof (pieces_no_sep sep (c_str p)) as Hall.
      rewrite Forall_forall in Hall. by apply Hall.
    + by intros [[=]|[= ->]].
  - exists []. by rewrite app_nil_r.
Qed.

Lemma parse_path_appends_tokens_witness :
  ∃ toks, parse_path (Some "::/usr/bin:::/bin:") ["/sbin"] ":"
          = Returns (["/sbin"] ++ toks)
          ∧ toks = from_option (tokens_of ":") [] (Some "::/usr/bin:::/bin:")
          ∧ Forall (fun t => t ≠ EmptyString) toks
          ∧ Forall (fun t => occurs ":" t = false) toks
          ∧ (Some "::/usr/bin:::/bin:" = None
             ∨ Some "::/usr/bin:::/bin:" = Some EmptyString
             → toks = []).
Proof.
  apply (parse_path_appends_tokens (Some "::/usr/bin:::/bin:") ["/sbin"] ":").
  discriminate.
Defined.

(** ** One turn of the loop of the assembler *)

Lemma tilde_slash_cases (tok : string) :
  tilde_slash tok = true → ∃ r, tok = String "~" (String "/" r).
Proof.
  destruct tok as [|c [|d r]]; [done..|]. simpl.
  intros [?%bool_decide_eq_true ?%bool_decide_eq_true]%andb_true_iff.
  subst. by exists r.
Qed.

Lemma wants_home_spec (path_args : PathArgs) (tok : string) (tr : list syscall) :
  throws path_args tok = false →
  wants_home path_args tok tr = (Ok (expand path_args && tilde_slash tok), tr).
Proof.
  unfold throws, wants_home. destruct (expand path_args); simpl; [|done].
  destruct tok as [|c [|d r]]; simpl; [done| |].
  - unfold Str.at_; unfold_M. by destruct (decide (_ = c)) as [<-|].
  - intros _. unfold Str.at_; unfold_M.
    destruct (decide (_ = c)) as [<-|]; simpl.
    + f_equal. f_equal. apply bool_decide_ext. naive_solver.
    + by rewrite bool_decide_eq_false_2.
Qed.

Lemma wants_home_throws (path_args : PathArgs) (tok : string) (tr : list syscall) :
  expand path_args = true →
  tok = EmptyString ∨ tok = "~" →
  wants_home path_args tok tr
  = (Throw (out_of_range (String.length tok) (String.length tok)), tr).
Proof. unfold wants_home. by intros -> [->| ->]. Qed.

Lemma replace_tilde_spec (path_args : PathArgs) (w : World) (home0 : option string)
    (tok : string) (tr : list syscall) :
  home_cached w home0 →
  expand path_args && tilde_slash tok = true →
  replace_tilde w home0 tok tr
  = (Ok (expanded path_args w tok, home_after path_args w home0 tok),
     tr ++ match home0 with None => [sys_getenv "HOME"] | Some _ => [] end).
Proof.
  intros Hc He. unfold replace_tilde, expanded, home_after, home_dir, getenv.
  rewrite He. destruct home0 as [h|]; unfold_M.
  - destruct Hc as [|Hc]; [done|]. rewrite <-Hc. simpl. by rewrite app_nil_r.
  - by destruct (environ w !! "HOME").
Qed.

Lemma expanded_not_empty (path_args : PathArgs) (w : World) (tok : string) :
  tok ≠ EmptyString → expanded path_args w tok ≠ EmptyString.
Proof.
  intros Htok. unfold expanded.
  destruct (expand path_args && tilde_slash tok) eqn:He; [|done].
  apply andb_true_iff in He as [_ (r & ->)%tilde_slash_cases].
  destruct (home_dir w) as [h|]; [|done]. simpl. by destruct h.
Qed.

Lemma wants_check_spec (path_args : PathArgs) (v : string) (tr : list syscall) :
  v ≠ EmptyString →
  wants_check path_args v tr = (Ok (negb (force path_args) && absolute v), tr).
Proof.
  intros Hv. unfold wants_check. destruct (force path_args); [done|].
  destruct v as [|c v]; [done|]. unfold Str.at_; unfold_M.
  f_equal. f_equal. apply bool_decide_ext. naive_solver.
Qed.

Lemma wants_check_force (path_args : PathArgs) (v : string) (tr : list syscall) :
  force path_args = true → wants_check path_args v tr = (Ok false, tr).
Proof. unfold wants_check. by intros ->. Qed.

Lemma is_dir_spec (w : World) (v : string) (tr : list syscall) :
  is_dir w v tr = (Ok (is_directory w v), tr ++ [sys_stat v]).
Proof. unfold is_dir, is_directory, stat. unfold_M. by destruct (stat_of w v). Qed.

Lemma bind_Ok {A B : Type} (m : M A) (f : A → M B) (tr tr' : list syscall) (a : A) :
  m tr = (Ok a, tr') → (m ≫= f) tr = f a tr'.
Proof. intros H. unfold mbind, M_bind. by rewrite H. Qed.

Lemma bind_Throw {A B : Type} (m : M A) (f : A → M B) (tr tr' : list syscall) (e : exn) :
  m tr = (Throw e, tr') → (m ≫= f) tr = (Throw e, tr').
Proof. intros H. unfold mbind, M_bind. by rewrite H. Qed.

Lemma build_step_spec (path_args : PathArgs) (w : World) (st : Loop)
    (tok : string) (tr : list syscall) :
  home_cached w (home st) →
  throws path_args tok = false →
  build_step path_args w st tok tr
  = (Ok (step_spec path_args w st tok),
     tr ++ step_calls path_args w (home st) tok).
Proof.
  intros Hc Ht. unfold build_step.
  rewrite (bind_Ok _ _ _ _ _ (wants_home_spec _ _ _ Ht)).
  set (v := expanded path_args w tok).
  set (c1 := if expand path_args && tilde_slash tok
             then match home st with None => [sys_getenv "HOME"] | Some _ => [] end
             else []).
  assert ((if expand path_args && tilde_slash tok
           then replace_tilde w (home st) tok else mret (tok, home st)) tr
          = (Ok (v, home_after path_args w (home st) tok), tr ++ c1)) as H1.
  { subst v c1. destruct (expand path_args && tilde_slash tok) eqn:He.
    - by apply replace_tilde_spec.
    - unfold expanded, home_after. rewrite He. unfold_M. by rewrite app_nil_r. }
  rewrite (bind_Ok _ _ _ _ _ H1). clear H1. simpl.
  assert (wants_check path_args v (tr ++ c1)
          = (Ok (negb (force path_args) && absolute v), tr ++ c1)) as H2.
  { destruct (force path_args) eqn:Hf; [by apply wants_check_force|].
    rewrite wants_check_spec; [by rewrite Hf|].
    apply expanded_not_empty. intros ->. unfold throws in Ht. rewrite Hf in Ht.
    simpl in Ht. by rewrite orb_true_r in Ht. }
  rewrite (bind_Ok _ _ _ _ _ H2). clear H2.
  unfold step_spec, step_calls, appends, passes. fold v. fold c1.
  destruct (negb (force path_args) && absolute v) eqn:Hchk.
  - apply andb_true_iff in Hchk as [Hf%negb_true_iff Habs]. rewrite Hf, Habs. simpl.
    erewrite bind_Ok; last first.
    { erewrite bind_Ok; [|apply is_dir_spec]. reflexivity. }
    rewrite <-(assoc_L (++)). destruct (is_directory w v); simpl; [|done].
    destruct (allow_dups path_args); simpl; [done|].
    by destruct (decide (v ∈ dir_set st));
      [rewrite bool_decide_eq_true_2, bool_decide_eq_false_2 by auto
      |rewrite bool_decide_eq_false_2, bool_decide_eq_true_2 by auto].
  - erewrite bind_Ok; [|reflexivity]. rewrite app_nil_r.
    assert (force path_args || negb (absolute v) = true) as ->.
    { destruct (force path_args), (absolute v); done. }
    simpl. destruct (allow_dups path_args); simpl; [done|].
    by destruct (decide (v ∈ dir_set st));
      [rewrite bool_decide_eq_true_2, bool_decide_eq_false_2 by auto
      |rewrite bool_decide_eq_false_2, bool_decide_eq_true_2 by auto].
Qed.

Lemma build_step_throws (path_args : PathArgs) (w : World) (st : Loop)
    (tok : string) (tr : list syscall) :
  throws path_args tok = true →
  build_step path_args w st tok tr
  = (Throw (out_of_range (String.length tok) (String.length tok)), tr).
Proof.
  intros Ht. unfold build_step. destruct (expand path_args) eqn:He.
  - apply bind_Throw, wants_home_throws; [done|].
    unfold throws in Ht. rewrite He in Ht. simpl in Ht.
    apply orb_true_iff in Ht as [?%bool_decide_eq_true|?%bool_decide_eq_true]; auto.
  - unfold throws in Ht. rewrite He in Ht. simpl in Ht. rewrite orb_false_r in Ht.
    apply andb_true_iff in Ht as [Hf%negb_true_iff ->%bool_decide_eq_true].
    unfold wants_home, wants_check. rewrite He, Hf. reflexivity.
Qed.

Lemma home_after_cached (path_args : PathArgs) (w : World) (home0 : option string)
    (tok : string) :
  home_cached w home0 → home_cached w (home_after path_args w home0 tok).
Proof.
  unfold home_cached, home_after. intros [->| ->];
    destruct (expand path_args && tilde_slash tok); auto.
  destruct (environ w !! "HOME"); auto.
Qed.

Lemma step_spec_home (path_args : PathArgs) (w : World) (st : Loop) (tok : string) :
  home (step_spec path_args w st tok) = home_after path_args w (home st) tok.
Proof. unfold step_spec. by destruct (appends _ _ _ _). Qed.

(** ** The loop of the assembler *)

Lemma build_loop_spec (path_args : PathArgs) (w : World) (toks : list string) :
  ∀ (st : Loop) (tr : list syscall),
    home_cached w (home st) →
    Forall (fun t => throws path_args t = false) toks →
    build_loop path_args w toks st tr
    = (Ok (foldl (step_spec path_args w) st toks),
       tr ++ loop_calls path_args w (home st) toks).
Proof.
  induction toks as [|tok toks IH]; intros st tr Hc Hall; simpl.
  - unfold_M. by rewrite app_nil_r.
  - apply Forall_cons in Hall as [Ht Hall].
    erewrite bind_Ok; [|by apply build_step_spec].
    rewrite IH; [|rewrite step_spec_home; by apply home_after_cached|done].
    by rewrite step_spec_home, <-(assoc_L (++)).
Qed.

Lemma build_loop_Ok (path_args : PathArgs) (w : World) (toks : list string) :
  ∀ (st st' : Loop) (tr tr' : list syscall),
    home_cached w (home st) →
    build_loop path_args w toks st tr = (Ok st', tr') →
    Forall (fun t => throws path_args t = false) toks.
Proof.
  induction toks as [|tok toks IH]; intros st st' tr tr' Hc; simpl; [done|].
  destruct (throws path_args tok) eqn:Ht.
  - by erewrite bind_Throw; [|by apply build_step_throws].
  - erewrite bind_Ok; [|by apply build_step_spec].
    intros H. constructor; [done|]. eapply IH; [|done].
    rewrite step_spec_home. by apply home_after_cached.
Qed.

Lemma build_loop_throws (path_args : PathArgs) (w : World) (l1 l2 : list string)
    (t : string) :
  ∀ (st : Loop) (tr : list syscall),
    home_cached w (home st) →
    Forall (fun t => throws path_args t = false) l1 →
    throws path_args t = true →
    build_loop path_args w (l1 ++ t :: l2) st tr
    = (Throw (out_of_range (String.length t) (String.length t)),
       tr ++ loop_calls path_args w (home st) l1).
Proof.
  induction l1 as [|tok l1 IH]; intros st tr Hc Hall Ht; simpl.
  - rewrite app_nil_r. by apply bind_Throw, build_step_throws.
  - apply Forall_cons in Hall as [Htok Hall].
    erewrite bind_Ok; [|by apply build_step_spec].
    rewrite IH; [|rewrite step_spec_home; by apply home_after_cached|done..].
    by rewrite step_spec_home, <-(assoc_L (++)).
Qed.

Lemma foldl_step_spec_path (path_args : PathArgs) (w : World) (toks : list string) :
  ∀ st : Loop,
    path (foldl (step_spec path_args w) st toks)
    = foldl (append_entry (sep path_args)) (path st)
        (kept path_args w (dir_set st) toks).
Proof.
  induction toks as [|tok toks IH]; intros st; simpl; [done|].
  rewrite IH. unfold step_spec. by destruct (appends _ _ _ _).
Qed.

Lemma build_path_spec (path_args : PathArgs) (w : World) (tr : list syscall) :
  Forall (fun t => throws path_args t = false) (arg_vec path_args) →
  build_path path_args w tr
  = (Ok (foldl (append_entry (sep path_args)) EmptyString
           (kept path_args w ∅ (arg_vec path_args))),
     tr ++ loop_calls path_args w None (arg_vec path_args)).
Proof.
  intros Hall. unfold build_path.
  erewrite bind_Ok; [|apply build_loop_spec; [by left|done]].
  unfold_M. by rewrite foldl_step_spec_path.
Qed.

Lemma build_path_Ok (path_args : PathArgs) (w : World) (tr tr' : list syscall)
    (out : string) :
  build_path path_args w tr = (Ok out, tr') →
  Forall (fun t => throws path_args t = false) (arg_vec path_args).
Proof.
  unfold build_path. intros H.
  destruct (build_loop path_args w (arg_vec path_args)
              {| path := EmptyString; dir_set := ∅; home := None |} tr)
    as [[st|e] tr1] eqn:Hl.
  - eapply build_loop_Ok; [|done]. by left.
  - by erewrite bind_Throw in H.
Qed.

(** C1 (as the code has it): with home expansion enabled, a token that
    is just a tilde is not carried through: [curr_path.at( 1 )] is out of
    range for it, and [build_path] ends with that exception whatever the
    other tokens (none of them empty, as the tokenizer makes them) are. *)
Theorem lone_tilde_throws (path_args : PathArgs) (w : World) (tr : list syscall) :
  expand path_args = true →
  Forall (fun t => t ≠ EmptyString) (arg_vec path_args) →
  "~" ∈ arg_vec path_args →
  ∃ tr', build_path path_args w tr = (Throw (out_of_range 1 1), tr').
Proof.
  intros He Hne (l1 & l2 & Heq & Hl1)%list_elem_of_split_l.
  unfold build_path. rewrite Heq in *.
  eexists. apply bind_Throw.
  apply (build_loop_throws path_args w l1 l2 "~").
  - by left.
  - apply Forall_app in Hne as [Hne _]. apply Forall_forall. intros t Ht.
    unfold throws. rewrite He. simpl.
    rewrite !bool_decide_eq_false_2; [done| |].
    + by intros ->.
    + rewrite Forall_forall in Hne. by apply Hne.
  - unfold throws. by rewrite He, orb_true_r.
Qed.

Lemma lone_tilde_throws_witness :
  ∃ tr', build_path
           {| arg_vec := ["~"]; sep := ":"; allow_dups := false;
              force := false; help := false; expand := true |} alice []
         = (Throw (out_of_range 1 1), tr').
Proof.
  apply (lone_tilde_throws
           {| arg_vec := ["~"]; sep := ":"; allow_dups := false;
              force := false; help := false; expand := true |} alice []).
  - reflexivity.
  - repeat constructor; discriminate.
  - apply list_elem_of_here.
Defined.

(** ** The entries of a run *)

Lemma filter_all {A : Type} (P : A → Prop) `{!∀ x, Decision (P x)} (l : list A) :
  Forall P l → filter P l = l.
Proof.
  induction 1 as [|x l Hx Hl IH]; [done|].
  by rewrite filter_cons_True, IH.
Qed.

Lemma first_occurrences_elem_of (l : list string) (x : string) :
  x ∈ first_occurrences l ↔ x ∈ l.
Proof.
  induction l as [|y l IH]; simpl; [done|].
  rewrite !elem_of_cons, list_elem_of_filter, IH.
  destruct (decide (x = y)); tauto.
Qed.

Lemma first_occurrences_NoDup (l : list string) : NoDup (first_occurrences l).
Proof.
  induction l as [|y l IH]; simpl; [constructor|].
  apply NoDup_cons. split.
  - rewrite list_elem_of_filter. tauto.
  - by apply NoDup_filter.
Qed.

Lemma first_occurrences_id (l : list string) : NoDup l → first_occurrences l = l.
Proof.
  induction 1 as [|x l Hx Hl IH]; simpl; [done|].
  rewrite IH. f_equal. apply filter_all, Forall_forall. by intros y Hy ->.
Qed.

Lemma first_occurrences_filter (P : string → Prop) `{!∀ x, Decision (P x)}
    (l : list string) :
  first_occurrences (filter P l) = filter P (first_occurrences l).
Proof.
  induction l as [|x l IH]; simpl; [done|].
  destruct (decide (P x)) as [HP|HP].
  - rewrite !filter_cons_True by done. simpl. rewrite IH. f_equal.
    rewrite !list_filter_filter. apply list_filter_iff. tauto.
  - rewrite !filter_cons_False by done. rewrite IH.
    rewrite list_filter_filter. apply list_filter_iff.
    intros y. split; [|tauto]. intros Hy. split; [done|]. by intros ->.
Qed.

(** A later token that repeats an earlier one adds nothing. *)
Lemma first_occurrences_repeat (l1 l2 l3 : list string) (x : string) :
  first_occurrences (l1 ++ x :: l2 ++ x :: l3)
  = first_occurrences (l1 ++ x :: l2 ++ l3).
Proof.
  induction l1 as [|y l1 IH]; simpl.
  - f_equal. rewrite <-!first_occurrences_filter. f_equal.
    rewrite !filter_app, filter_cons_False; [done|]. by intros ?.
  - by rewrite IH.
Qed.

Lemma kept_allow_dups (path_args : PathArgs) (w : World) (toks : list string) :
  allow_dups path_args = true →
  ∀ seen, kept path_args w seen toks
          = filter (fun v => passes path_args w v = true)
              (expanded path_args w <$> toks).
Proof.
  intros Hd. induction toks as [|tok toks IH]; intros seen; simpl; [done|].
  unfold appends. rewrite Hd. simpl. rewrite andb_true_r.
  destruct (passes path_args w (expanded path_args w tok)) eqn:Ha.
  - by rewrite filter_cons_True, IH.
  - rewrite filter_cons_False, IH; [done|]. by rewrite Ha.
Qed.

Lemma kept_no_dups (path_args : PathArgs) (w : World) (toks : list string) :
  allow_dups path_args = false →
  ∀ seen : gset string,
    kept path_args w seen toks
    = filter (fun v => v ∉ seen)
        (first_occurrences
           (filter (fun v => passes path_args w v = true)
              (expanded path_args w <$> toks))).
Proof.
  intros Hd. induction toks as [|tok toks IH]; intros seen; simpl; [done|].
  unfold appends. rewrite Hd. simpl.
  set (v := expanded path_args w tok).
  destruct (passes path_args w v) eqn:Ha; simpl.
  - rewrite filter_cons_True by done. simpl.
    destruct (decide (v ∈ seen)) as [Hv|Hv].
    + rewrite bool_decide_eq_false_2 by auto.
      rewrite filter_cons_False by auto. rewrite IH.
      rewrite list_filter_filter. apply list_filter_iff.
      intros y. split; [|tauto]. intros Hy. split; [done|]. by intros ->.
    + rewrite bool_decide_eq_true_2 by done.
      rewrite filter_cons_True by done. f_equal. rewrite IH.
      rewrite list_filter_filter. apply list_filter_iff.
      intros y. rewrite not_elem_of_union, not_elem_of_singleton. tauto.
  - rewrite filter_cons_False; [by apply IH|]. by rewrite Ha.
Qed.

Lemma kept_entries (path_args : PathArgs) (w : World) (toks : list string) :
  kept path_args w ∅ toks = entries path_args w toks.
Proof.
  unfold entries. destruct (allow_dups path_args) eqn:Hd.
  - by apply kept_allow_dups.
  - rewrite kept_no_dups by done. apply filter_all, Forall_forall.
    intros v _. apply not_elem_of_empty.
Qed.

Lemma entries_elem_of (path_args : PathArgs) (w : World) (toks : list string)
    (v : string) :
  v ∈ entries path_args w toks
  ↔ passes path_args w v = true ∧ ∃ tok, v = expanded path_args w tok ∧ tok ∈ toks.
Proof.
  unfold entries. destruct (allow_dups path_args).
  - by rewrite list_elem_of_filter, list_elem_of_fmap.
  - by rewrite first_occurrences_elem_of, list_elem_of_filter, list_elem_of_fmap.
Qed.

Lemma entries_not_empty (path_args : PathArgs) (w : World) (toks : list string) :
  Forall (fun t => t ≠ EmptyString) toks →
  Forall (fun v => v ≠ EmptyString) (entries path_args w toks).
Proof.
  rewrite !Forall_forall. intros Htoks v (_ & tok & -> & Htok)%entries_elem_of.
  by apply expanded_not_empty, Htoks.
Qed.

(** ** The path list as the entries joined by separators *)

Lemma joined_cons (sep : ascii) (t : string) (l : list string) :
  joined sep (t :: l) = t +:+ sep_join sep l.
Proof.
  revert t. induction l as [|x l IH]; intros t.
  - simpl. by rewrite str_app_nil_r.
  - unfold joined in *. change (String.concat ?s (t :: x :: l))
      with (t +:+ s +:+ String.concat s (x :: l)).
    by rewrite IH.
Qed.

Lemma append_entry_not_empty (sep : ascii) (p x : string) :
  p ≠ EmptyString → append_entry sep p x = p +:+ String sep x.
Proof.
  intros Hp. unfold append_entry, Str.push_back.
  destruct p; [done|]. simpl. by rewrite str_app_assoc.
Qed.

Lemma foldl_append_entry (sep : ascii) (l : list string) :
  ∀ p, p ≠ EmptyString →
       foldl (append_entry sep) p l = p +:+ sep_join sep l.
Proof.
  induction l as [|x l IH]; intros p Hp; simpl.
  - by rewrite str_app_nil_r.
  - rewrite append_entry_not_empty by done. rewrite IH.
    + by rewrite str_app_assoc.
    + by destruct p.
Qed.

Lemma foldl_append_entry_joined (sep : ascii) (l : list string) :
  Forall (fun v => v ≠ EmptyString) l →
  foldl (append_entry sep) EmptyString l = joined sep l.
Proof.
  destruct 1 as [|x l Hx Hl]; [done|].
  rewrite joined_cons. simpl. by apply foldl_append_entry.
Qed.

Lemma throws_false (path_args : PathArgs) (toks : list string) :
  Forall (fun t => t ≠ EmptyString) toks →
  (expand path_args = true → "~" ∉ toks) →
  Forall (fun t => throws path_args t = false) toks.
Proof.
  rewrite !Forall_forall. intros Hne Htilde t Ht. unfold throws.
  rewrite (bool_decide_eq_false_2 (t = EmptyString)) by auto.
  rewrite andb_false_r. simpl.
  destruct (expand path_args); [|done]. simpl.
  apply bool_decide_eq_false_2. intros ->. by apply Htilde.
Qed.

Lemma throws_false_tilde (path_args : PathArgs) (toks : list string) :
  Forall (fun t => throws path_args t = false) toks →
  expand path_args = true → "~" ∉ toks.
Proof.
  rewrite Forall_forall. intros Hall He Hin. apply Hall in Hin.
  unfold throws in Hin. by rewrite He, orb_true_r in Hin.
Qed.

(** What a run of [build_path] over tokens as the tokenizer makes them
    gives: the entries joined by separators, and the calls of the loop. *)
Lemma build_path_entries (path_args : PathArgs) (w : World) (tr : list syscall) :
  Forall (fun t => t ≠ EmptyString) (arg_vec path_args) →
  (expand path_args = true → "~" ∉ arg_vec path_args) →
  build_path path_args w tr
  = (Ok (joined (sep path_args) (entries path_args w (arg_vec path_args))),
     tr ++ loop_calls path_args w None (arg_vec path_args)).
Proof.
  intros Hne Htilde. rewrite build_path_spec by by apply throws_false.
  by rewrite kept_entries, foldl_append_entry_joined by by apply entries_not_empty.
Qed.

Lemma build_path_Ok_entries (path_args : PathArgs) (w : World)
    (tr tr' : list syscall) (out : string) :
  Forall (fun t => t ≠ EmptyString) (arg_vec path_args) →
  build_path path_args w tr = (Ok out, tr') →
  out = joined (sep path_args) (entries path_args w (arg_vec path_args))
  ∧ tr' = tr ++ loop_calls path_args w None (arg_vec path_args)
  ∧ (expand path_args = true → "~" ∉ arg_vec path_args).
Proof.
  intros Hne Hb. pose proof (build_path_Ok _ _ _ _ _ Hb) as Hall.
  pose proof (throws_false_tilde _ _ Hall) as Htilde.
  rewrite build_path_entries in Hb by done. by simplify_eq.
Qed.

(** ** The tokens of the operands *)

Lemma parse_operands_good (sep : ascii) (operands : list string) :
  sep ≠ NUL →
  ∀ vec, ∃ toks, parse_operands operands vec sep = Returns (vec ++ toks)
                 ∧ Forall (good_token sep) toks.
Proof.
  intros Hsep. induction operands as [|a operands IH]; intros vec;
    cbn [parse_operands].
  - exists []. by rewrite app_nil_r.
  - destruct (parse_path_good (Some a) vec sep Hsep) as (toks1 & -> & H1).
    destruct (IH (vec ++ toks1)) as (toks2 & -> & H2).
    exists (toks1 ++ toks2). split; [by rewrite (assoc_L (++))|].
    by apply Forall_app.
Qed.

Lemma parse_operands_tokens (sep : ascii) (operands toks : list string) :
  sep ≠ NUL →
  parse_operands operands [] sep = Returns toks →
  Forall (good_token sep) toks.
Proof.
  intros Hsep Hp.
  destruct (parse_operands_good sep operands Hsep []) as (toks' & Hp' & Hg).
  rewrite Hp in Hp'. by simplify_eq/=.
Qed.

Lemma good_tokens_not_empty (sep : ascii) (toks : list string) :
  Forall (good_token sep) toks → Forall (fun t => t ≠ EmptyString) toks.
Proof. intros H. eapply Forall_impl; [done|]. by intros t (? & _). Qed.

(** ** Deduplication *)

Lemma filter_passes_repeat (path_args : PathArgs) (w : World)
    (l1 l2 l3 : list string) (t1 t2 : string) :
  expanded path_args w t1 = expanded path_args w t2 →
  first_occurrences
    (filter (fun v => passes path_args w v = true)
       (expanded path_args w <$> l1 ++ t1 :: l2 ++ t2 :: l3))
  = first_occurrences
      (filter (fun v => passes path_args w v = true)
         (expanded path_args w <$> l1 ++ t1 :: l2 ++ l3)).
Proof.
  intros Heq. rewrite !fmap_app, !fmap_cons, !fmap_app, !fmap_cons, <-Heq.
  rewrite !filter_app, !filter_cons, !filter_app, !filter_cons.
  destruct (decide (passes path_args w (expanded path_args w t1) = true)).
  - apply first_occurrences_repeat.
  - done.
Qed.

(** C4: when duplicates are not allowed, the output is made of the tokens
    after home-directory expansion (those that the existence check lets
    through), each once, at the place of its first occurrence: of two
    tokens that are equal after expansion the later one adds nothing, the
    output is the same without it. *)
Theorem duplicates_first_only (path_args : PathArgs) (w : World)
    (operands : list string) (tr tr' : list syscall) (out : string) :
  sep path_args ≠ NUL →
  parse_operands operands [] (sep path_args) = Returns (arg_vec path_args) →
  allow_dups path_args = false →
  build_path path_args w tr = (Ok out, tr') →
  let es := first_occurrences
              (filter (fun v => passes path_args w v = true)
                 (expanded path_args w <$> arg_vec path_args)) in
  out = joined (sep path_args) es
  ∧ NoDup es
  ∧ ∀ l1 l2 l3 t1 t2,
      arg_vec path_args = l1 ++ t1 :: l2 ++ t2 :: l3 →
      expanded path_args w t1 = expanded path_args w t2 →
      ∃ tr'', build_path (with_arg_vec path_args (l1 ++ t1 :: l2 ++ l3)) w tr
              = (Ok out, tr'').
Proof.
  intros Hsep Hp Hd Hb es.
  pose proof (good_tokens_not_empty _ _ (parse_operands_tokens _ _ _ Hsep Hp)) as Hne.
  destruct (build_path_Ok_entries _ _ _ _ _ Hne Hb) as (Hout & _ & Htilde).
  unfold entries in Hout. rewrite Hd in Hout. fold es in Hout.
  split_and!; [done|apply first_occurrences_NoDup|].
  intros l1 l2 l3 t1 t2 Hvec Heq. eexists.
  rewrite build_path_entries; simpl.
  - unfold entries. simpl. rewrite Hd, Hout. subst es. rewrite Hvec.
    by rewrite (filter_passes_repeat _ _ _ _ _ _ _ Heq).
  - rewrite Hvec in Hne. rewrite !Forall_app, !Forall_cons, !Forall_app in *.
    rewrite Forall_cons in Hne. tauto.
  - intros He Hin. apply (Htilde He). rewrite Hvec.
    rewrite !elem_of_app, !elem_of_cons, !elem_of_app in *.
    rewrite elem_of_cons. tauto.
Qed.

(** ** The existence check *)

Lemma loop_calls_stat (path_args : PathArgs) (w : World) (toks : list string)
    (p : string) :
  ∀ home0,
    sys_stat p ∈ loop_calls path_args w home0 toks →
    force path_args = false ∧ absolute p = true
    ∧ ∃ tok, tok ∈ toks ∧ p = expanded path_args w tok.
Proof.
  induction toks as [|tok toks IH]; intros home0; simpl.
  { by intros ?%elem_of_nil. }
  unfold step_calls. rewrite !elem_of_app. intros [[Hin|Hin]|Hin].
  - destruct (expand path_args && tilde_slash tok); [|by apply elem_of_nil in Hin].
    destruct home0; [by apply elem_of_nil in Hin|].
    by apply list_elem_of_singleton in Hin.
  - destruct (negb (force path_args) && absolute (expanded path_args w tok)) eqn:Hc;
      [|by apply elem_of_nil in Hin].
    apply list_elem_of_singleton in Hin as [= ->].
    apply andb_true_iff in Hc as [Hf%negb_true_iff Ha].
    split_and!; [done..|]. exists tok. split; [left|done].
  - destruct (IH _ Hin) as (? & ? & tok' & ? & ?).
    split_and!; [done..|]. exists tok'. split; [by right|done].
Qed.

(** C5: when the existence check is not switched off, a run is not made
    to fail by what [stat] answers; every entry of the output that starts
    with a slash is a directory that [stat] found; a token that after
    expansion starts with a slash and is not found as a directory is left
    out; a token that after expansion does not start with a slash is an
    entry of the output; and [stat] is called for nothing but tokens that
    after expansion start with a slash. *)
Theorem existence_check (path_args : PathArgs) (w : World)
    (operands : list string) (tr : list syscall) :
  sep path_args ≠ NUL →
  parse_operands operands [] (sep path_args) = Returns (arg_vec path_args) →
  force path_args = false →
  (expand path_args = true → "~" ∉ arg_vec path_args) →
  let es := entries path_args w (arg_vec path_args) in
  let cs := loop_calls path_args w None (arg_vec path_args) in
  build_path path_args w tr = (Ok (joined (sep path_args) es), tr ++ cs)
  ∧ (∀ v, v ∈ es → absolute v = true → is_directory w v = true)
  ∧ (∀ tok, tok ∈ arg_vec path_args →
       absolute (expanded path_args w tok) = true →
       is_directory w (expanded path_args w tok) = false →
       expanded path_args w tok ∉ es)
  ∧ (∀ tok, tok ∈ arg_vec path_args →
       absolute (expanded path_args w tok) = false →
       expanded path_args w tok ∈ es)
  ∧ (∀ p, sys_stat p ∈ cs →
       absolute p = true
       ∧ ∃ tok, tok ∈ arg_vec path_args ∧ p = expanded path_args w tok).
Proof.
  intros Hsep Hp Hf Htilde es cs.
  pose proof (good_tokens_not_empty _ _ (parse_operands_tokens _ _ _ Hsep Hp)) as Hne.
  split_and!.
  - by apply build_path_entries.
  - intros v (Ha & _)%entries_elem_of Habs. unfold passes in Ha.
    by rewrite Hf, Habs in Ha.
  - intros tok Htok Habs Hdir (Ha & _)%entries_elem_of. unfold passes in Ha.
    by rewrite Hf, Habs, Hdir in Ha.
  - intros tok Htok Habs. apply entries_elem_of. split.
    + unfold passes. by rewrite Habs, orb_true_r.
    + by exists tok.
  - intros p Hin. by destruct (loop_calls_stat _ _ _ _ _ Hin) as (_ & ? & ?).
Qed.

(** ** Home-directory expansion when HOME is not set *)

Lemma expanded_home_unset (path_args : PathArgs) (w : World) (tok : string) :
  environ w !! "HOME" = None → expanded path_args w tok = tok.
Proof.
  intros Hh. unfold expanded, home_dir. rewrite Hh. simpl.
  by destruct (expand path_args && tilde_slash tok).
Qed.

Lemma absolute_tilde_slash (tok : string) :
  tilde_slash tok = true → absolute tok = false.
Proof. by intros (r & ->)%tilde_slash_cases. Qed.

Lemma throws_tilde_slash (path_args : PathArgs) (tok : string) :
  tilde_slash tok = true → throws path_args tok = false.
Proof.
  intros (r & ->)%tilde_slash_cases. unfold throws.
  by rewrite !bool_decide_eq_false_2, !andb_false_r by done.
Qed.

(** C7: with home expansion enabled and HOME not in the environment, a
    turn of the loop on a token that begins with [~/] throws nothing; it
    asks for HOME, makes no other call, and goes on with the token as it
    is: the token itself is appended to the path list (unless duplicates
    are not allowed and it is an entry already), and [home] stays null. *)
Theorem home_unset_keeps_token (path_args : PathArgs) (w : World) (st : Loop)
    (tok : string) (tr : list syscall) :
  expand path_args = true →
  environ w !! "HOME" = None →
  home_cached w (home st) →
  tilde_slash tok = true →
  build_step path_args w st tok tr
  = (Ok (if allow_dups path_args || bool_decide (tok ∉ dir_set st) then
           {| path := append_entry (sep path_args) (path st) tok;
              dir_set := if allow_dups path_args then dir_set st
                         else {[ tok ]} ∪ dir_set st;
              home := None |}
         else {| path := path st; dir_set := dir_set st; home := None |}),
     tr ++ [sys_getenv "HOME"]).
Proof.
  intros He Hh Hc Htok.
  assert (home st = None) as Hst by (destruct Hc; congruence).
  rewrite build_step_spec by auto using throws_tilde_slash.
  unfold step_spec, step_calls, appends, passes, home_after.
  rewrite (expanded_home_unset _ _ _ Hh), (absolute_tilde_slash _ Htok).
  rewrite He, Htok, Hst, Hh, andb_false_r, app_nil_r. simpl.
  by rewrite orb_true_r.
Qed.

(** With HOME not in the environment, a run with home expansion enabled
    gives what the run without it gives, tokens that begin with [~/]
    included. *)
Lemma home_unset_run (path_args : PathArgs) (w : World) (operands : list string)
    (tr : list syscall) :
  sep path_args ≠ NUL →
  parse_operands operands [] (sep path_args) = Returns (arg_vec path_args) →
  environ w !! "HOME" = None →
  "~" ∉ arg_vec path_args →
  ∃ out tr1 tr2,
    build_path (with_expand path_args true) w tr = (Ok out, tr1)
    ∧ build_path (with_expand path_args false) w tr = (Ok out, tr2)
    ∧ ∀ tok, tok ∈ arg_vec path_args → tilde_slash tok = true →
             tok ∈ entries (with_expand path_args true) w (arg_vec path_args).
Proof.
  intros Hsep Hp Hh Htilde.
  pose proof (good_tokens_not_empty _ _ (parse_operands_tokens _ _ _ Hsep Hp)) as Hne.
  assert (entries (with_expand path_args false) w (arg_vec path_args)
          = entries (with_expand path_args true) w (arg_vec path_args)) as Heq.
  { unfold entries. simpl.
    assert (expanded (with_expand path_args false) w <$> arg_vec path_args
            = expanded (with_expand path_args true) w <$> arg_vec path_args) as ->.
    { apply list_fmap_ext. intros _ tok _.
      by rewrite !(expanded_home_unset _ _ _ Hh). }
    done. }
  do 3 eexists. rewrite !build_path_entries by done. split_and!.
  - reflexivity.
  - simpl. by rewrite Heq.
  - intros tok Htok Hts. apply entries_elem_of. split.
    + unfold passes. by rewrite (absolute_tilde_slash _ Hts), orb_true_r.
    + exists tok. by rewrite (expanded_home_unset _ _ _ Hh).
Qed.

(** ** Separators in the path list *)

Lemma starts_with_app (c : ascii) (s t : string) :
  s ≠ EmptyString → starts_with c (s +:+ t) = starts_with c s.
Proof. by destruct s. Qed.

Lemma ends_with_cons (c d : ascii) (s : string) :
  s ≠ EmptyString → ends_with c (String d s) = ends_with c s.
Proof. by destruct s. Qed.

Lemma ends_with_app (c : ascii) (s t : string) :
  t ≠ EmptyString → ends_with c (s +:+ t) = ends_with c t.
Proof.
  intros Ht. induction s as [|d s IH]; [done|].
  rewrite str_app_cons, ends_with_cons; [done|]. by destruct s, t.
Qed.

Lemma doubled_app (c : ascii) (s t : string) :
  doubled c (s +:+ t)
  = doubled c s || doubled c t || ends_with c s && starts_with c t.
Proof.
  induction s as [|d s IH]; simpl.
  - by rewrite str_app_nil_l, orb_false_r.
  - rewrite IH. destruct s as [|e s]; rewrite ?str_app_nil_l, ?str_app_cons; simpl.
    + destruct (bool_decide (d = c)), (starts_with c t), (doubled c t); done.
    + destruct (bool_decide (d = c)), (bool_decide (e = c)), (starts_with c s),
        (doubled c s), (doubled c t),
        (match s with
         | EmptyString => bool_decide (e = c)
         | String _ _ => ends_with c s
         end && starts_with c t); done.
Qed.

Lemma ends_with_occurs (c : ascii) (s : string) :
  occurs c s = false → ends_with c s = false.
Proof.
  induction s as [|d s IH]; [done|]. simpl.
  intros [Hd Hs]%orb_false_elim. destruct s; [done|]. by apply IH.
Qed.

Lemma doubled_occurs (c : ascii) (s : string) :
  occurs c s = false → doubled c s = false.
Proof.
  induction s as [|d s IH]; [done|]. simpl.
  intros [Hd Hs]%orb_false_elim. by rewrite Hd, IH.
Qed.

Lemma tidy_occurs (c : ascii) (s : string) : occurs c s = false → tidy c s = true.
Proof.
  intros H. unfold tidy.
  by rewrite starts_with_occurs, ends_with_occurs, doubled_occurs.
Qed.

Lemma doubled_cons (c d : ascii) (s : string) :
  doubled c (String d s) = bool_decide (d = c) && starts_with c s || doubled c s.
Proof. reflexivity. Qed.

Lemma sep_join_cons (sep : ascii) (x : string) (l : list string) :
  sep_join sep (x :: l) = String sep (x +:+ sep_join sep l).
Proof. reflexivity. Qed.

Lemma sep_join_tidy (sep : ascii) (l : list string) :
  Forall (tidy_entry sep) l →
  doubled sep (sep_join sep l) = false ∧ ends_with sep (sep_join sep l) = false.
Proof.
  induction 1 as [|x l [Hx Ht] Hl [IHd IHe]]; [done|].
  unfold tidy in Ht.
  apply andb_true_iff in Ht as
    [[Hs%negb_true_iff He%negb_true_iff]%andb_true_iff Hd%negb_true_iff].
  rewrite sep_join_cons. split.
  - rewrite doubled_cons, starts_with_app, Hs, doubled_app, Hd, IHd, He by done.
    by rewrite andb_false_r.
  - rewrite ends_with_cons by by destruct x.
    destruct l as [|y l].
    + by rewrite str_app_nil_r.
    + by rewrite ends_with_app.
Qed.

Lemma joined_tidy (sep : ascii) (l : list string) :
  Forall (tidy_entry sep) l → tidy sep (joined sep l) = true.
Proof.
  destruct 1 as [|x l [Hx Ht] Hl]; [done|].
  destruct (sep_join_tidy sep l Hl) as [Hd He].
  rewrite joined_cons. unfold tidy in *.
  apply andb_true_iff in Ht as
    [[Hs%negb_true_iff Hxe%negb_true_iff]%andb_true_iff Hxd%negb_true_iff].
  rewrite starts_with_app, Hs, doubled_app, Hxd, Hd, Hxe by done. simpl.
  rewrite andb_true_r. apply negb_true_iff.
  destruct l as [|y l].
  - by rewrite str_app_nil_r.
  - by rewrite ends_with_app.
Qed.

Lemma expanded_tidy (path_args : PathArgs) (w : World) (sep : ascii) (tok : string) :
  good_token sep tok →
  (expand path_args = true →
   ∀ h, home_dir w = Some h → starts_with sep h = false ∧ doubled sep h = false) →
  tidy_entry sep (expanded path_args w tok).
Proof.
  intros (Hne & Hs & _) Hhome. split; [by apply expanded_not_empty|].
  unfold expanded. destruct (expand path_args && tilde_slash tok) eqn:He;
    [|by apply tidy_occurs].
  apply andb_true_iff in He as [He (r & ->)%tilde_slash_cases].
  destruct (home_dir w) as [h|] eqn:Hh; [|by apply tidy_occurs].
  destruct (Hhome He h eq_refl) as [Hhs Hhd].
  assert (occurs sep (String "/" r) = false) as Hs'.
  { simpl in Hs. by apply orb_false_elim in Hs as [_ Hs]. }
  clear Hs. rename Hs' into Hs.
  pose proof (starts_with_occurs _ _ Hs) as Hs1.
  unfold tidy. change (Str.erase_first (String "~" (String "/" r))) with (String "/" r).
  rewrite ends_with_app, doubled_app by done.
  rewrite (ends_with_occurs _ _ Hs), (doubled_occurs _ _ Hs), Hhd, Hs1.
  rewrite andb_false_r. simpl. rewrite !andb_true_r. apply negb_true_iff.
  destruct h as [|c h]; [done|]. by rewrite starts_with_app.
Qed.

(** C2 (amended): unless home-directory expansion brings in a value of
    HOME that starts with the separator or has two separators in a row,
    the output of [build_path] over the tokens of the arguments has no
    leading, no trailing and no two consecutive separators. *)
Theorem output_tidy (path_args : PathArgs) (w : World) (operands : list string)
    (tr tr' : list syscall) (out : string) :
  sep path_args ≠ NUL →
  parse_operands operands [] (sep path_args) = Returns (arg_vec path_args) →
  (expand path_args = true →
   ∀ h, home_dir w = Some h →
        starts_with (sep path_args) h = false ∧ doubled (sep path_args) h = false) →
  build_path path_args w tr = (Ok out, tr') →
  starts_with (sep path_args) out = false
  ∧ ends_with (sep path_args) out = false
  ∧ doubled (sep path_args) out = false.
Proof.
  intros Hsep Hp Hhome Hb.
  pose proof (parse_operands_tokens _ _ _ Hsep Hp) as Hgood.
  destruct (build_path_Ok_entries _ _ _ _ _ (good_tokens_not_empty _ _ Hgood) Hb)
    as (-> & _ & _).
  assert (tidy (sep path_args)
            (joined (sep path_args) (entries path_args w (arg_vec path_args))) = true)
    as Ht.
  { apply joined_tidy, Forall_forall.
    intros v (_ & tok & -> & Htok)%entries_elem_of.
    apply expanded_tidy; [|done]. rewrite Forall_forall in Hgood. by apply Hgood. }
  unfold tidy in Ht.
  by apply andb_true_iff in Ht as
    [[?%negb_true_iff ?%negb_true_iff]%andb_true_iff ?%negb_true_iff].
Qed.

(** C2 as stated fails: the name of the home directory goes into the path
    list as it is, separators included. *)
Lemma output_tidy_counterexample :
  parse_operands ["~/bin"] [] ":" = Returns ["~/bin"]
  ∧ build_path {| arg_vec := ["~/bin"]; sep := ":"; allow_dups := false;
                  force := false; help := false; expand := true |} colons []
    = (Ok "/srv/a::b/bin", [sys_getenv "HOME"; sys_stat "/srv/a::b/bin"])
  ∧ doubled ":" "/srv/a::b/bin" = true.
Proof. split_and!; vm_compute; reflexivity. Qed.

(** ** Tokenizing a path list *)

Lemma find_stop_app (sep : ascii) (t rest : string) :
  occurs sep t = false →
  occurs NUL t = false →
  rest = EmptyString ∨ starts_with sep rest = true →
  find_stop sep (t +:+ rest) = (t, rest).
Proof.
  intros Hs Hn Hrest. induction t as [|c t IH].
  - rewrite str_app_nil_l. destruct Hrest as [->|Hrest]; [done|].
    destruct rest as [|d rest]; [done|]. simpl in *.
    apply bool_decide_eq_true in Hrest as ->.
    destruct (decide (sep = NUL)); [done|]. by rewrite decide_True.
  - rewrite str_app_cons. simpl in *.
    apply orb_false_elim in Hs as [Hc%bool_decide_eq_false Hs].
    apply orb_false_elim in Hn as [Hc'%bool_decide_eq_false Hn].
    rewrite !decide_False by done. by rewrite IH.
Qed.

Lemma sep_join_starts (sep : ascii) (l : list string) :
  sep_join sep l = EmptyString ∨ starts_with sep (sep_join sep l) = true.
Proof.
  destruct l as [|x l]; [by left|right].
  rewrite sep_join_cons. simpl. by apply bool_decide_eq_true.
Qed.

Lemma parse_loop_token (n : nat) (sep c : ascii) (t rest : string)
    (vec : list string) :
  good_token sep (String c t) →
  rest = EmptyString ∨ starts_with sep rest = true →
  parse_loop (S n) sep (String c (t +:+ rest)) vec
  = parse_loop n sep rest (vec ++ [String c t]).
Proof.
  intros (_ & Hs & Hn) Hrest. simpl in Hs, Hn.
  apply orb_false_elim in Hs as [Hc%bool_decide_eq_false Hs].
  apply orb_false_elim in Hn as [Hc'%bool_decide_eq_false Hn].
  cbn [parse_loop skip_seps].
  rewrite (decide_False (P := sep = c)) by auto.
  rewrite (decide_False (P := c = NUL)) by done.
  by rewrite find_stop_app.
Qed.

Lemma parse_loop_sep_join (sep : ascii) (l : list string) :
  sep ≠ NUL →
  Forall (good_token sep) l →
  ∀ (n : nat) (vec : list string),
    String.length (sep_join sep l) < n →
    parse_loop n sep (sep_join sep l) vec = Returns (vec ++ l).
Proof.
  intros Hsep. induction 1 as [|x l Hx Hl IH]; intros n vec Hn.
  - destruct n; [simpl in Hn; lia|]. simpl.
    rewrite decide_False by done. by rewrite app_nil_r.
  - rewrite sep_join_cons in *. simpl in Hn.
    destruct n as [|n]; [lia|].
    destruct x as [|c t]; [by destruct Hx|].
    rewrite str_app_cons in *. simpl in Hn. rewrite str_length_app in Hn.
    destruct n as [|n]; [lia|].
    transitivity (parse_loop (S (S n)) sep (String c (t +:+ sep_join sep l)) vec).
    { cbn [parse_loop skip_seps]. by rewrite decide_True. }
    rewrite parse_loop_token by auto using sep_join_starts.
    rewrite IH by lia. by rewrite <-(assoc_L (++)).
Qed.

(** Tokenizing the entries joined by separators gives the entries back. *)
Lemma parse_path_joined (sep : ascii) (l : list string) :
  sep ≠ NUL →
  Forall (good_token sep) l →
  parse_path (Some (joined sep l)) [] sep = Returns l.
Proof.
  intros Hsep Hl. destruct Hl as [|x l Hx Hl]; [done|].
  rewrite joined_cons. destruct x as [|c t]; [by destruct Hx|].
  pose proof Hx as (_ & _ & Hn). simpl in Hn.
  apply orb_false_elim in Hn as [Hc%bool_decide_eq_false _].
  rewrite str_app_cons. unfold parse_path. simpl deref.
  rewrite decide_False by done.
  rewrite parse_loop_token by auto using sep_join_starts.
  rewrite parse_loop_sep_join; [done..|].
  simpl. rewrite str_length_app. lia.
Qed.

(** ** Running the assembler on its own output *)

Lemma c_str_no_nul (p : string) : occurs NUL (c_str p) = false.
Proof.
  induction p as [|c p IH]; [done|]. simpl.
  destruct (decide (c = NUL)); [done|]. simpl.
  by rewrite IH, bool_decide_eq_false_2.
Qed.

Lemma home_dir_no_nul (w : World) (h : string) :
  home_dir w = Some h → occurs NUL h = false.
Proof.
  unfold home_dir. destruct (environ w !! "HOME") as [p|]; [|done].
  intros [= <-]. apply c_str_no_nul.
Qed.

Lemma occurs_tail (c d : ascii) (s : string) :
  occurs c (String d s) = false → occurs c s = false.
Proof. simpl. by intros [_ ?]%orb_false_elim. Qed.

Lemma expanded_good (path_args : PathArgs) (w : World) (sep : ascii) (tok : string) :
  good_token sep tok →
  (expand path_args = true → ∀ h, home_dir w = Some h → occurs sep h = false) →
  good_token sep (expanded path_args w tok).
Proof.
  intros Hgood Hhome. pose proof Hgood as (Hne & Hs & Hn).
  split; [by apply expanded_not_empty|].
  unfold expanded. destruct (expand path_args && tilde_slash tok) eqn:He; [|done].
  apply andb_true_iff in He as [He (r & ->)%tilde_slash_cases].
  destruct (home_dir w) as [h|] eqn:Hh; [|done].
  change (Str.erase_first (String "~" (String "/" r))) with (String "/" r).
  rewrite !occurs_app, (Hhome He h eq_refl), (home_dir_no_nul _ _ Hh).
  by rewrite (occurs_tail _ _ _ Hs), (occurs_tail _ _ _ Hn).
Qed.

Lemma tilde_slash_cons (c : ascii) (s : string) :
  tilde_slash (String c s)
  = bool_decide (c = "~"%char) && starts_with "/"%char s.
Proof. destruct s; [|done]. simpl. by rewrite andb_false_r. Qed.

Lemma expanded_idem (path_args : PathArgs) (w : World) (tok : string) :
  (expand path_args = true → ∀ h, home_dir w = Some h → tilde_slash h = false) →
  expanded path_args w (expanded path_args w tok) = expanded path_args w tok.
Proof.
  intros Hhome. unfold expanded at 2.
  destruct (expand path_args && tilde_slash tok) eqn:He; last first.
  { unfold expanded. by rewrite He. }
  destruct (home_dir w) as [h|] eqn:Hh; last first.
  { unfold expanded. by rewrite He, Hh. }
  apply andb_true_iff in He as [He (r & ->)%tilde_slash_cases].
  change (Str.erase_first (String "~" (String "/" r))) with (String "/" r).
  pose proof (Hhome He h eq_refl) as Hts.
  unfold expanded. rewrite He, Hh. simpl.
  destruct h as [|c [|d h]]; rewrite ?str_app_cons, ?str_app_nil_l.
  - by rewrite tilde_slash_cons.
  - rewrite tilde_slash_cons. simpl.
    destruct (bool_decide (c = "~"%char)) eqn:Hc; [|done].
    by apply bool_decide_eq_true in Hc as ->.
  - rewrite tilde_slash_cons in *. simpl in *. by rewrite Hts.
Qed.

Lemma expanded_not_tilde (path_args : PathArgs) (w : World) (tok : string) :
  tok ≠ "~" → expanded path_args w tok ≠ "~".
Proof.
  intros Htok. unfold expanded.
  destruct (expand path_args && tilde_slash tok) eqn:He; [|done].
  apply andb_true_iff in He as [He (r & ->)%tilde_slash_cases].
  destruct (home_dir w) as [h|]; [|done].
  change (Str.erase_first (String "~" (String "/" r))) with (String "/" r).
  destruct h as [|c [|d h]]; rewrite ?str_app_cons, ?str_app_nil_l; congruence.
Qed.

Lemma fmap_fixed {A : Type} (f : A → A) (l : list A) :
  Forall (fun x => f x = x) l → f <$> l = l.
Proof. induction 1 as [|x l Hx Hl IH]; [done|]. by rewrite fmap_cons, Hx, IH. Qed.

Lemma entries_NoDup (path_args : PathArgs) (w : World) (toks : list string) :
  allow_dups path_args = false → NoDup (entries path_args w toks).
Proof. intros Hd. unfold entries. rewrite Hd. apply first_occurrences_NoDup. Qed.

(** The entries of a run over the entries of a run are these entries. *)
Lemma entries_idem (path_args : PathArgs) (w : World) (toks : list string) :
  (expand path_args = true → ∀ h, home_dir w = Some h → tilde_slash h = false) →
  entries path_args w (entries path_args w toks) = entries path_args w toks.
Proof.
  intros Hhome. set (es := entries path_args w toks).
  assert (expanded path_args w <$> es = es) as Hfix.
  { apply fmap_fixed, Forall_forall.
    intros v (_ & tok & -> & _)%entries_elem_of. by apply expanded_idem. }
  assert (filter (fun v => passes path_args w v = true) es = es) as Hpass.
  { apply filter_all, Forall_forall. by intros v (? & _)%entries_elem_of. }
  unfold entries at 1. rewrite Hfix, Hpass.
  destruct (allow_dups path_args) eqn:Hd; [done|].
  by apply first_occurrences_id, entries_NoDup.
Qed.

(** C3 (amended): unless home-directory expansion brings in a value of
    HOME that holds the separator or itself begins with [~/], splitting
    the output of [build_path] at the separator gives tokens on which
    [build_path] gives the same output again (so that splitting it gives
    the same tokens again). *)
Theorem assembly_idempotent (path_args : PathArgs) (w : World)
    (operands : list string) (tr tr' : list syscall) (out : string) :
  sep path_args ≠ NUL →
  parse_operands operands [] (sep path_args) = Returns (arg_vec path_args) →
  (expand path_args = true →
   ∀ h, home_dir w = Some h →
        occurs (sep path_args) h = false ∧ tilde_slash h = false) →
  build_path path_args w tr = (Ok out, tr') →
  ∃ toks tr'',
    parse_path (Some out) [] (sep path_args) = Returns toks
    ∧ build_path (with_arg_vec path_args toks) w tr = (Ok out, tr'').
Proof.
  intros Hsep Hp Hhome Hb.
  pose proof (parse_operands_tokens _ _ _ Hsep Hp) as Hgood.
  pose proof (good_tokens_not_empty _ _ Hgood) as Hne.
  destruct (build_path_Ok_entries _ _ _ _ _ Hne Hb) as (-> & _ & Htilde).
  set (es := entries path_args w (arg_vec path_args)).
  assert (Forall (good_token (sep path_args)) es) as Hes.
  { apply Forall_forall. intros v (_ & tok & -> & Htok)%entries_elem_of.
    apply expanded_good.
    - rewrite Forall_forall in Hgood. by apply Hgood.
    - intros He h Hh. by destruct (Hhome He h Hh). }
  exists es. eexists. split; [by apply parse_path_joined|].
  rewrite build_path_entries; simpl.
  - change (entries (with_arg_vec path_args es) w es) with (entries path_args w es).
    subst es. rewrite entries_idem; [done|].
    intros He h Hh. by destruct (Hhome He h Hh).
  - by apply good_tokens_not_empty in Hes.
  - intros He (_ & tok & Heq & Htok)%entries_elem_of.
    symmetry in Heq. revert Heq. apply expanded_not_tilde.
    intros ->. by apply Htilde.
Qed.

(** C3 as stated fails: a separator in the name of the home directory
    splits one entry into several, which the existence check then judges
    one by one. *)
Lemma assembly_idempotent_counterexample :
  parse_operands ["~/bin"] [] "e" = Returns ["~/bin"]
  ∧ build_path {| arg_vec := ["~/bin"]; sep := "e"; allow_dups := false;
                  force := false; help := false; expand := true |} alice []
    = (Ok "/home/alice/bin", [sys_getenv "HOME"; sys_stat "/home/alice/bin"])
  ∧ parse_path (Some "/home/alice/bin") [] "e" = Returns ["/hom"; "/alic"; "/bin"]
  ∧ build_path {| arg_vec := ["/hom"; "/alic"; "/bin"]; sep := "e";
                  allow_dups := false; force := false; help := false;
                  expand := true |} alice []
    = (Ok EmptyString, [sys_stat "/hom"; sys_stat "/alic"; sys_stat "/bin"])
  ∧ parse_path (Some EmptyString) [] "e" = Returns [].
Proof. split_and!; vm_compute; reflexivity. Qed.

(** Nor is a run idempotent when the value of HOME begins with [~/]: the
    expanded entry is expanded again. *)
Lemma assembly_idempotent_tilde_home :
  parse_operands ["~/bin"] [] ":" = Returns ["~/bin"]
  ∧ build_path {| arg_vec := ["~/bin"]; sep := ":"; allow_dups := false;
                  force := false; help := false; expand := true |} nested []
    = (Ok "~/x/bin", [sys_getenv "HOME"])
  ∧ parse_path (Some "~/x/bin") [] ":" = Returns ["~/x/bin"]
  ∧ build_path {| arg_vec := ["~/x/bin"]; sep := ":"; allow_dups := false;
                  force := false; help := false; expand := true |} nested []
    = (Ok "~/x/x/bin", [sys_getenv "HOME"]).
Proof. split_and!; vm_compute; reflexivity. Qed.

(** ** What [getopt] returns *)

Lemma declared_Some (c : ascii) (b : bool) :
  declared c = Some b → c ∈ ["d"; "f"; "h"; "s"; "x"]%char.
Proof.
  unfold declared, optstring. destruct (decide (c = ":"%char)); [done|].
  simpl. repeat (destruct (decide (_ = c)) as [<-|]); try congruence;
    intros _; apply (bool_decide_unpack _); vm_compute; exact I.
Qed.

Lemma getopt_cluster_values (cs : string) (next : option string) :
  Forall (fun r => opt r ∈ getopt_values) (getopt_cluster cs next).1.
Proof.
  induction cs as [|c cs IH]; simpl; [constructor|].
  destruct (declared c) as [[|]|] eqn:Hd.
  - apply declared_Some in Hd.
    assert (c ∈ getopt_values) as Hc.
    { unfold getopt_values. rewrite !elem_of_cons in *. tauto. }
    destruct cs, next; simpl; (constructor; [|constructor]); simpl;
      first [exact Hc | apply (bool_decide_unpack _); vm_compute; exact I].
  - apply declared_Some in Hd.
    assert (c ∈ getopt_values) as Hc.
    { unfold getopt_values. rewrite !elem_of_cons in *. tauto. }
    destruct (getopt_cluster cs next) as [rs used]. by constructor.
  - destruct (getopt_cluster cs next) as [rs used]. constructor; [|done].
    apply (bool_decide_unpack _). vm_compute. exact I.
Qed.

(** Every value that the [switch] of [get_opts] meets is one of its
    [case]s: its [default] is never taken. *)
Lemma getopt_scan_values (permute : bool) (args : list string) :
  Forall (fun r => opt r ∈ getopt_values) (getopt_scan permute args).1.
Proof.
  assert (∀ n args, length args ≤ n →
            Forall (fun r => opt r ∈ getopt_values) (getopt_scan permute args).1)
    as H; [|by apply (H (length args))].
  clear args. induction n as [|n IH]; intros args Hn.
  { destruct args; [constructor|simpl in Hn; lia]. }
  destruct args as [|a rest]; [constructor|]. simpl in *.
  destruct (decide (a = "--")); [constructor|].
  destruct (is_option_arg a).
  - pose proof (getopt_cluster_values (Str.erase_first a) (head rest)) as Hc.
    destruct (getopt_cluster (Str.erase_first a) (head rest)) as [rs used].
    destruct rest as [|b rest'].
    + simpl. by rewrite app_nil_r.
    + pose proof (IH rest' ltac:(simpl in Hn; lia)) as H1.
      pose proof (IH (b :: rest') ltac:(simpl in *; lia)) as H2.
      destruct used.
      * destruct (getopt_scan permute rest'). simpl in *. by apply Forall_app.
      * destruct (getopt_scan permute (b :: rest')). simpl in *. by apply Forall_app.
  - destruct permute; [|constructor].
    pose proof (IH rest ltac:(lia)) as H1.
    by destruct (getopt_scan true rest).
Qed.

(** ** The command line *)

Lemma get_opts_case_s (path_args : PathArgs) (sep_found : bool) (r : getopt_ret) :
  opt r = "s"%char →
  get_opts_case path_args sep_found r
  = if decide (NUL = deref (optarg r)) then
      Throw (runtime_error "Specified separator is an empty string")
    else if decide (NUL ≠ deref (Str.erase_first (optarg r))) then
      Throw (runtime_error "Specified separator consists of multiple characters")
    else if sep_found && bool_decide (deref (optarg r) ≠ sep path_args) then
      Throw (runtime_error "Conflicting specifications for separator character")
    else
      Ok ({| arg_vec := arg_vec path_args; sep := deref (optarg r);
             allow_dups := allow_dups path_args; force := force path_args;
             help := help path_args; expand := expand path_args |}, true).
Proof. unfold get_opts_case. by intros ->. Qed.

(** What a turn of the loop of [get_opts] that does not throw leaves. *)
Lemma get_opts_case_Ok (path_args path_args' : PathArgs) (sep_found sep_found' : bool)
    (r : getopt_ret) :
  get_opts_case path_args sep_found r = Ok (path_args', sep_found') →
  arg_vec path_args' = arg_vec path_args
  ∧ (sep path_args ≠ NUL → sep path_args' ≠ NUL)
  ∧ (help path_args' = true ↔ help path_args = true ∨ opt r = "h"%char)
  ∧ (sep_found = true → sep_found' = true ∧ sep path_args' = sep path_args).
Proof.
  destruct (decide (opt r = "s"%char)) as [Hs|Hs].
  - rewrite get_opts_case_s by done.
    destruct (decide (NUL = deref (optarg r))) as [|Hnul]; [done|].
    destruct (decide (NUL ≠ deref (Str.erase_first (optarg r)))); [done|].
    destruct (sep_found && bool_decide (deref (optarg r) ≠ sep path_args)) eqn:Hc;
      [done|].
    intros [= <- <-]. simpl. split_and!; [done|by auto| |].
    + rewrite Hs. split; [by left|]. by intros [|[=]].
    + intros ->. simpl in Hc. apply bool_decide_eq_false in Hc.
      split; [done|]. by destruct (decide (deref (optarg r) = sep path_args)).
  - unfold get_opts_case.
    destruct (opt r) as [[] [] [] [] [] [] [] []]; try done;
      intros [= <- <-]; simpl; (split_and!; [done|done| |done]);
      (split; [by auto|]); by intros [|[=]].
Qed.

(** All that [get_opts] throws are [runtime_error]s. *)
Lemma get_opts_case_Throw (path_args : PathArgs) (sep_found : bool)
    (r : getopt_ret) (e : exn) :
  get_opts_case path_args sep_found r = Throw e → ∃ what, e = runtime_error what.
Proof.
  destruct (decide (opt r = "s"%char)) as [Hs|Hs].
  - rewrite get_opts_case_s by done.
    repeat case_match; intros [= <-]; eauto.
  - unfold get_opts_case.
    destruct (opt r) as [[] [] [] [] [] [] [] []]; try done;
      intros [= <-]; eauto.
Qed.

Lemma get_opts_loop_Ok (rs : list getopt_ret) :
  ∀ (path_args path_args' : PathArgs) (sep_found : bool),
    get_opts_loop path_args sep_found rs = Ok path_args' →
    arg_vec path_args' = arg_vec path_args
    ∧ (sep path_args ≠ NUL → sep path_args' ≠ NUL)
    ∧ (help path_args' = true
       ↔ help path_args = true ∨ ∃ r, r ∈ rs ∧ opt r = "h"%char).
Proof.
  induction rs as [|r rs IH]; intros path_args path_args' sep_found; simpl.
  - intros [= <-]. split_and!; [done..|]. split; [by left|].
    by intros [|(r & ?%elem_of_nil & _)].
  - destruct (get_opts_case path_args sep_found r) as [[pa1 sf1]|e] eqn:Hc; [|done].
    simpl. intros Hl.
    destruct (get_opts_case_Ok _ _ _ _ _ Hc) as (Hv & Hsep & Hhelp & _).
    destruct (IH _ _ _ Hl) as (Hv' & Hsep' & Hhelp').
    split_and!; [congruence|by auto|].
    rewrite Hhelp', Hhelp. split.
    + intros [[|]|(r' & ? & ?)]; [by left|right..].
      * exists r. split; [left|done].
      * exists r'. split; [by right|done].
    + intros [|(r' & [->|]%elem_of_cons & ?)]; [by auto..|].
      right. by exists r'.
Qed.

Lemma get_opts_loop_Throw (rs : list getopt_ret) :
  ∀ (path_args : PathArgs) (sep_found : bool) (e : exn),
    get_opts_loop path_args sep_found rs = Throw e → ∃ what, e = runtime_error what.
Proof.
  induction rs as [|r rs IH]; intros path_args sep_found e; simpl; [done|].
  destruct (get_opts_case path_args sep_found r) as [[pa1 sf1]|e1] eqn:Hc; simpl.
  - apply IH.
  - intros [= <-]. by eapply get_opts_case_Throw.
Qed.

(** Once a separator has been set, an [-s] with another character throws. *)
Lemma get_opts_loop_second (l2 l3 : list getopt_ret) (r2 : getopt_ret) (b : ascii) :
  opt r2 = "s"%char →
  optarg r2 = String b EmptyString →
  ∀ path_args : PathArgs,
    b ≠ sep path_args →
    ∃ e, get_opts_loop path_args true (l2 ++ r2 :: l3) = Throw e.
Proof.
  intros Ho Ha. induction l2 as [|r l2 IH]; intros path_args Hb; simpl.
  - rewrite get_opts_case_s by done. rewrite Ha. simpl.
    destruct (decide (NUL = b)); [by eexists|].
    rewrite bool_decide_eq_true_2 by done. by eexists.
  - destruct (get_opts_case path_args true r) as [[pa1 sf1]|e] eqn:Hc;
      [|by eexists].
    destruct (get_opts_case_Ok _ _ _ _ _ Hc) as (_ & _ & _ & Hsf).
    destruct (Hsf eq_refl) as [-> Hsep]. simpl. apply IH. by rewrite Hsep.
Qed.

(** Two [-s] with different characters make the loop of [get_opts] throw. *)
Lemma get_opts_loop_conflict (l1 l2 l3 : list getopt_ret) (r1 r2 : getopt_ret)
    (a b : ascii) :
  opt r1 = "s"%char → optarg r1 = String a EmptyString →
  opt r2 = "s"%char → optarg r2 = String b EmptyString →
  a ≠ b →
  ∀ (path_args : PathArgs) (sep_found : bool),
    ∃ e, get_opts_loop path_args sep_found (l1 ++ r1 :: l2 ++ r2 :: l3) = Throw e.
Proof.
  intros Ho1 Ha1 Ho2 Ha2 Hab.
  induction l1 as [|r l1 IH]; intros path_args sep_found; simpl.
  - rewrite get_opts_case_s by done. rewrite Ha1. simpl.
    destruct (decide (NUL = a)); [by eexists|].
    destruct (sep_found && bool_decide (a ≠ sep path_args)); [by eexists|].
    simpl. by apply (get_opts_loop_second l2 l3 r2 b).
  - destruct (get_opts_case path_args sep_found r) as [[pa1 sf1]|e]; [|by eexists].
    simpl. apply IH.
Qed.

(** ** Runs of [main] *)

Lemma get_opts_Ok (w : World) (args operands : list string) (path_args : PathArgs) :
  get_opts w args = Ok (path_args, operands) →
  arg_vec path_args = []
  ∧ sep path_args ≠ NUL
  ∧ operands = (getopt_scan (getopt_permutes w) args).2
  ∧ (help path_args = true
     ↔ ∃ r, r ∈ (getopt_scan (getopt_permutes w) args).1 ∧ opt r = "h"%char).
Proof.
  unfold get_opts.
  destruct (getopt_scan (getopt_permutes w) args) as [rs operands'].
  destruct (get_opts_loop _ false rs) as [pa|e] eqn:Hl; [|done].
  simpl. intros [= -> ->].
  destruct (get_opts_loop_Ok _ _ _ _ Hl) as (Hv & Hsep & Hhelp).
  split_and!; [done|by apply Hsep|done|].
  rewrite Hhelp. simpl. split; [by intros [|]|by right].
Qed.

(** The separator that [get_opts] delivers is a character of a string,
    so that [main] returns: no scan of its tokenizer runs past the end of
    an argument. *)
Lemma main_returns (w : World) (argv0 : string) (args : list string) :
  ∃ o, main w argv0 args = Returns o.
Proof.
  unfold main.
  destruct (get_opts w args) as [[path_args operands]|e] eqn:Hg; [|by eexists].
  destruct (help path_args); [by eexists|].
  destruct (get_opts_Ok _ _ _ _ Hg) as (_ & Hsep & _).
  destruct (parse_operands_good (sep path_args) operands Hsep (arg_vec path_args))
    as (toks & -> & _).
  destruct (build_path _ w []) as [[out|e] tr]; by eexists.
Qed.

(** C8: when [getopt] delivers two [-s] options with two different
    characters, [main] ends with exit code 1 and nothing on [cout]; what
    it writes to [cerr] is the [runtime_error] that [get_opts] threw; and
    it has made no call: neither tokenizer nor assembler has run. *)
Theorem conflicting_separators (w : World) (argv0 : string) (args : list string)
    (l1 l2 l3 : list getopt_ret) (operands : list string) (a b : ascii) :
  getopt_scan (getopt_permutes w) args
  = (l1 ++ {| opt := "s"; optarg := String a EmptyString; optopt := NUL |}
        :: l2 ++ {| opt := "s"; optarg := String b EmptyString; optopt := NUL |}
        :: l3, operands) →
  a ≠ b →
  ∃ what,
    get_opts w args = Throw (runtime_error what)
    ∧ main w argv0 args
      = Returns {| rc := 1; cout := EmptyString;
                   cerr := Some (report_runtime_error (basename argv0) what);
                   calls := [] |}.
Proof.
  intros Hscan Hab. unfold main, get_opts. rewrite Hscan.
  destruct (get_opts_loop_conflict l1 l2 l3
              {| opt := "s"; optarg := String a EmptyString; optopt := NUL |}
              {| opt := "s"; optarg := String b EmptyString; optopt := NUL |}
              a b eq_refl eq_refl eq_refl eq_refl Hab
              {| arg_vec := []; sep := DEFAULT_SEP; allow_dups := false;
                 force := false; help := false; expand := false |} false)
    as [e He].
  rewrite He. destruct (get_opts_loop_Throw _ _ _ _ He) as [what ->].
  by exists what.
Qed.

(** C9 (amended): when [get_opts] throws nothing and [getopt] has
    delivered an [-h] option, [main] writes the help text to [cout] and
    ends with exit code 0, and it has made no call: neither tokenizer nor
    assembler has run. *)
Theorem help_shown (w : World) (argv0 : string) (args operands : list string)
    (path_args : PathArgs) (r : getopt_ret) :
  get_opts w args = Ok (path_args, operands) →
  r ∈ (getopt_scan (getopt_permutes w) args).1 →
  opt r = "h"%char →
  main w argv0 args
  = Returns {| rc := 0; cout := show_help (basename argv0); cerr := None;
               calls := [] |}.
Proof.
  intros Hg Hr Ho. unfold main. rewrite Hg.
  destruct (get_opts_Ok _ _ _ _ Hg) as (_ & _ & _ & Hhelp).
  assert (help path_args = true) as -> by (apply Hhelp; eauto).
  done.
Qed.

(** C9 as stated fails: the options are all parsed before [main] looks at
    [help], and an option that [get_opts] rejects, even after [-h], ends
    the run with exit code 1 and no help text. *)
Lemma help_shown_counterexample :
  (getopt_scan (getopt_permutes alice) ["-h"; "-z"]).1
  = [ {| opt := "h"; optarg := EmptyString; optopt := NUL |};
      {| opt := "?"; optarg := EmptyString; optopt := "z" |} ]
  ∧ main alice "catpath" ["-h"; "-z"]
    = Returns {| rc := 1; cout := EmptyString;
                 cerr := Some (report_runtime_error "catpath"
                                 "Invalid option -z on command line");
                 calls := [] |}.
Proof. split; vm_compute; reflexivity. Qed.

(** C10: when [get_opts] throws nothing, no [-h] was given and no
    operand is left, [main] ends with exit code 0 and writes a newline,
    and nothing else, to [cout]. *)
Theorem no_operands (w : World) (argv0 : string) (args : list string)
    (path_args : PathArgs) :
  get_opts w args = Ok (path_args, []) →
  help path_args = false →
  main w argv0 args
  = Returns {| rc := 0; cout := nl; cerr := None; calls := [] |}.
Proof.
  intros Hg Hh. unfold main. rewrite Hg, Hh.
  destruct (get_opts_Ok _ _ _ _ Hg) as (-> & _).
  reflexivity.
Qed.

(** ** The theorems at work on the sample run *)

Lemma output_tidy_witness :
  starts_with ":" "/usr/bin:/usr/local/bin:/home/alice/bin:lib" = false
  ∧ ends_with ":" "/usr/bin:/usr/local/bin:/home/alice/bin:lib" = false
  ∧ doubled ":" "/usr/bin:/usr/local/bin:/home/alice/bin:lib" = false.
Proof.
  apply (output_tidy sample_args alice sample_operands []
           [sys_stat "/usr/bin"; sys_stat "/usr/local/bin"; sys_getenv "HOME";
            sys_stat "/home/alice/bin"; sys_stat "/usr/bin";
            sys_stat "/no/such/dir"]).
  - discriminate.
  - reflexivity.
  - intros _ h Hh. vm_compute in Hh. injection Hh as <-. split; reflexivity.
  - vm_compute. reflexivity.
Defined.

Lemma assembly_idempotent_witness :
  ∃ toks tr'',
    parse_path (Some "/usr/bin:/usr/local/bin:/home/alice/bin:lib") [] ":"
    = Returns toks
    ∧ build_path (with_arg_vec sample_args toks) alice []
      = (Ok "/usr/bin:/usr/local/bin:/home/alice/bin:lib", tr'').
Proof.
  apply (assembly_idempotent sample_args alice sample_operands []
           [sys_stat "/usr/bin"; sys_stat "/usr/local/bin"; sys_getenv "HOME";
            sys_stat "/home/alice/bin"; sys_stat "/usr/bin";
            sys_stat "/no/such/dir"]).
  - discriminate.
  - reflexivity.
  - intros _ h Hh. vm_compute in Hh. injection Hh as <-. split; reflexivity.
  - vm_compute. reflexivity.
Defined.

Lemma duplicates_first_only_witness :
  let es := first_occurrences
              (filter (fun v => passes sample_args alice v = true)
                 (expanded sample_args alice <$> arg_vec sample_args)) in
  "/usr/bin:/usr/local/bin:/home/alice/bin:lib" = joined (sep sample_args) es
  ∧ NoDup es
  ∧ ∀ l1 l2 l3 t1 t2,
      arg_vec sample_args = l1 ++ t1 :: l2 ++ t2 :: l3 →
      expanded sample_args alice t1 = expanded sample_args alice t2 →
      ∃ tr'', build_path (with_arg_vec sample_args (l1 ++ t1 :: l2 ++ l3)) alice []
              = (Ok "/usr/bin:/usr/local/bin:/home/alice/bin:lib", tr'').
Proof.
  apply (duplicates_first_only sample_args alice sample_operands []
           [sys_stat "/usr/bin"; sys_stat "/usr/local/bin"; sys_getenv "HOME";
            sys_stat "/home/alice/bin"; sys_stat "/usr/bin";
            sys_stat "/no/such/dir"]).
  - discriminate.
  - reflexivity.
  - reflexivity.
  - vm_compute. reflexivity.
Defined.

Lemma existence_check_witness :
  let es := entries sample_args alice (arg_vec sample_args) in
  let cs := loop_calls sample_args alice None (arg_vec sample_args) in
  build_path sample_args alice [] = (Ok (joined (sep sample_args) es), [] ++ cs)
  ∧ (∀ v, v ∈ es → absolute v = true → is_directory alice v = true)
  ∧ (∀ tok, tok ∈ arg_vec sample_args →
       absolute (expanded sample_args alice tok) = true →
       is_directory alice (expanded sample_args alice tok) = false →
       expanded sample_args alice tok ∉ es)
  ∧ (∀ tok, tok ∈ arg_vec sample_args →
       absolute (expanded sample_args alice tok) = false →
       expanded sample_args alice tok ∈ es)
  ∧ (∀ p, sys_stat p ∈ cs →
       absolute p = true
       ∧ ∃ tok, tok ∈ arg_vec sample_args ∧ p = expanded sample_args alice tok).
Proof.
  apply (existence_check sample_args alice sample_operands []).
  - discriminate.
  - reflexivity.
  - reflexivity.
  - intros _. apply (bool_decide_unpack _). vm_compute. exact I.
Defined.

Lemma home_unset_keeps_token_witness :
  build_step sample_args homeless sample_loop "~/bin" [sys_stat "/usr/bin"]
  = (Ok (if allow_dups sample_args
            || bool_decide ("~/bin" ∉ dir_set sample_loop) then
           {| path := append_entry (sep sample_args) (path sample_loop) "~/bin";
              dir_set := if allow_dups sample_args then dir_set sample_loop
                         else {[ "~/bin" ]} ∪ dir_set sample_loop;
              home := None |}
         else {| path := path sample_loop; dir_set := dir_set sample_loop;
                 home := None |}),
     [sys_stat "/usr/bin"] ++ [sys_getenv "HOME"]).
Proof.
  apply (home_unset_keeps_token sample_args homeless sample_loop "~/bin"
           [sys_stat "/usr/bin"]).
  - reflexivity.
  - reflexivity.
  - left. reflexivity.
  - reflexivity.
Defined.

Lemma conflicting_separators_witness :
  ∃ what,
    get_opts alice ["-s"; ":"; "-d"; "-s;"; "/usr/bin"] = Throw (runtime_error what)
    ∧ main alice "catpath" ["-s"; ":"; "-d"; "-s;"; "/usr/bin"]
      = Returns {| rc := 1; cout := EmptyString;
                   cerr := Some (report_runtime_error (basename "catpath") what);
                   calls := [] |}.
Proof.
  apply (conflicting_separators alice "catpath" ["-s"; ":"; "-d"; "-s;"; "/usr/bin"]
           [] [ {| opt := "d"; optarg := EmptyString; optopt := NUL |} ] []
           ["/usr/bin"] ":" ";").
  - reflexivity.
  - discriminate.
Defined.

Lemma help_shown_witness :
  main alice "/usr/local/bin/catpath" ["-d"; "-h"; "/usr/bin"]
  = Returns {| rc := 0; cout := show_help (basename "/usr/local/bin/catpath");
               cerr := None; calls := [] |}.
Proof.
  apply (help_shown alice "/usr/local/bin/catpath" ["-d"; "-h"; "/usr/bin"]
           ["/usr/bin"]
           {| arg_vec := []; sep := ":"; allow_dups := true; force := false;
              help := true; expand := false |}
           {| opt := "h"; optarg := EmptyString; optopt := NUL |}).
  - reflexivity.
  - simpl. apply list_elem_of_further, list_elem_of_here.
  - reflexivity.
Defined.

Lemma no_operands_witness :
  main alice "catpath" ["-d"; "-s"; ";"]
  = Returns {| rc := 0; cout := nl; cerr := None; calls := [] |}.
Proof.
  apply (no_operands alice "catpath" ["-d"; "-s"; ";"]
           {| arg_vec := []; sep := ";"; allow_dups := true; force := false;
              help := false; expand := false |}).
  - reflexivity.
  - reflexivity.
Defined.

(** * Further properties *)

(** ** More on the tokenizer *)

Lemma concat_empty_cons (x : string) (l : list string) :
  String.concat EmptyString (x :: l) = x +:+ String.concat EmptyString l.
Proof. destruct l; simpl; [by rewrite str_app_nil_r|done]. Qed.

Lemma concat_empty_pieces (sep : ascii) (s : string) :
  String.concat EmptyString (pieces sep s) = without sep s.
Proof.
  induction s as [|c s IH]; [done|]. cbn [pieces without].
  destruct (decide (c = sep)).
  - by rewrite concat_empty_cons, str_app_nil_l.
  - destruct (pieces sep s) as [|x l] eqn:Hp; [by apply pieces_not_nil in Hp|].
    rewrite concat_empty_cons in *. by rewrite str_app_cons, IH.
Qed.

Lemma concat_empty_filter (l : list string) :
  String.concat EmptyString (filter (fun t => t ≠ EmptyString) l)
  = String.concat EmptyString l.
Proof.
  induction l as [|x l IH]; [done|].
  rewrite filter_cons. destruct (decide (x ≠ EmptyString)) as [|Hx].
  - by rewrite !concat_empty_cons, IH.
  - apply dec_stable in Hx as ->. by rewrite concat_empty_cons, str_app_nil_l.
Qed.

(** X1: the tokenizer drops separators and nothing else: the tokens it
    appends, put end to end, are the characters of the input without the
    separators. *)
Theorem parse_path_keeps_characters (p : string) (vec : list string) (sep : ascii) :
  sep ≠ NUL →
  ∃ toks, parse_path (Some p) vec sep = Returns (vec ++ toks)
          ∧ String.concat EmptyString toks = without sep (c_str p).
Proof.
  intros Hsep. exists (tokens_of sep p). split; [by apply parse_path_tokens_of|].
  unfold tokens_of. by rewrite concat_empty_filter, concat_empty_pieces.
Qed.

Lemma parse_path_keeps_characters_witness :
  ∃ toks, parse_path (Some "::/usr/bin:::/bin:") ["/sbin"] ":"
          = Returns (["/sbin"] ++ toks)
          ∧ String.concat EmptyString toks = without ":" (c_str "::/usr/bin:::/bin:").
Proof.
  apply (parse_path_keeps_characters "::/usr/bin:::/bin:" ["/sbin"] ":").
  discriminate.
Defined.

Lemma c_str_app (a r : string) :
  occurs NUL a = false → c_str (a +:+ r) = a +:+ c_str r.
Proof.
  induction a as [|c a IH]; [done|]. simpl.
  intros [Hc%bool_decide_eq_false Ha]%orb_false_elim.
  rewrite decide_False by done. by rewrite IH, str_app_cons.
Qed.

Lemma c_str_id (a : string) : occurs NUL a = false → c_str a = a.
Proof.
  intros Ha. rewrite <-(str_app_nil_r a) at 1. rewrite c_str_app by done.
  apply str_app_nil_r.
Qed.

Lemma pieces_app_sep (sep : ascii) (s t : string) :
  pieces sep (s +:+ String sep t) = pieces sep s ++ pieces sep t.
Proof.
  induction s as [|c s IH].
  - rewrite str_app_nil_l. simpl. by rewrite decide_True.
  - rewrite str_app_cons. cbn [pieces]. rewrite IH.
    destruct (decide (c = sep)); [done|].
    destruct (pieces sep s) as [|x l] eqn:Hp; [by apply pieces_not_nil in Hp|done].
Qed.

Lemma tokens_of_app_sep (sep : ascii) (a b : string) :
  sep ≠ NUL →
  occurs NUL a = false →
  tokens_of sep (a +:+ String sep b) = tokens_of sep a ++ tokens_of sep b.
Proof.
  intros Hsep Ha. unfold tokens_of.
  rewrite c_str_app by done. simpl. rewrite decide_False by done.
  by rewrite pieces_app_sep, filter_app, (c_str_id a).
Qed.

(** X2: one operand that holds two path lists with a separator between
    them gives the tokens that the two path lists give as two operands,
    one after the other; so a separator at the start or at the end of an
    operand adds nothing. *)
Theorem parse_path_two_lists (a b : string) (vec : list string) (sep : ascii) :
  sep ≠ NUL →
  occurs NUL a = false →
  parse_path (Some (a +:+ String sep b)) vec sep = parse_operands [a; b] vec sep.
Proof.
  intros Hsep Ha. cbn [parse_operands].
  rewrite !parse_path_tokens_of by done.
  by rewrite tokens_of_app_sep, (assoc_L (++)).
Qed.

Lemma parse_path_two_lists_witness :
  parse_path (Some ("/usr/bin:/bin" +:+ String ":" ":/sbin")) ["lib"] ":"
  = parse_operands ["/usr/bin:/bin"; ":/sbin"] ["lib"] ":".
Proof.
  apply (parse_path_two_lists "/usr/bin:/bin" ":/sbin" ["lib"] ":").
  - discriminate.
  - reflexivity.
Defined.

(** X3: splitting undoes joining: for entries that are not empty and
    hold neither the separator nor NUL, the tokenizer appends to its
    sequence exactly the entries of the path list they were joined to. *)
Theorem parse_path_of_joined (l vec : list string) (sep : ascii) :
  sep ≠ NUL →
  Forall (good_token sep) l →
  parse_path (Some (joined sep l)) vec sep = Returns (vec ++ l).
Proof.
  intros Hsep Hl. pose proof (parse_path_joined sep l Hsep Hl) as H0.
  rewrite parse_path_tokens_of in * by done.
  rewrite app_nil_l in H0. injection H0 as H0. by rewrite H0.
Qed.

Lemma parse_path_of_joined_witness :
  parse_path (Some (joined ":" ["/usr/bin"; "lib"; "~/bin"])) ["/sbin"] ":"
  = Returns (["/sbin"] ++ ["/usr/bin"; "lib"; "~/bin"]).
Proof.
  apply (parse_path_of_joined ["/usr/bin"; "lib"; "~/bin"] ["/sbin"] ":").
  - discriminate.
  - repeat constructor; discriminate.
Defined.

(** X4: a path list is in normal form after one pass: joining the tokens
    of any input and tokenizing the result gives the same tokens. *)
Theorem parse_path_normal_form (p : string) (sep : ascii) :
  sep ≠ NUL →
  ∃ toks, parse_path (Some p) [] sep = Returns toks
          ∧ parse_path (Some (joined sep toks)) [] sep = Returns toks.
Proof.
  intros Hsep.
  destruct (parse_path_good (Some p) [] sep Hsep) as (toks & Hp & Hgood).
  exists toks. split; [done|]. by apply parse_path_joined.
Qed.

Lemma parse_path_normal_form_witness :
  ∃ toks, parse_path (Some "::/usr/bin:::/bin:") [] ":" = Returns toks
          ∧ parse_path (Some (joined ":" toks)) [] ":" = Returns toks.
Proof. apply (parse_path_normal_form "::/usr/bin:::/bin:" ":"). discriminate. Defined.

Lemma skip_seps_nul (start start1 : string) :
  skip_seps NUL start = Returns start1 →
  ∃ c p, start1 = String c p ∧ c ≠ NUL.
Proof.
  induction start as [|c p IH]; simpl; [done|].
  destruct (decide (NUL = c)) as [<-|Hc]; [done|].
  intros [= <-]. by exists c, p.
Qed.

Lemma parse_loop_nul (n : nat) :
  ∀ (start : string) (vec v : list string),
    parse_loop n NUL start vec ≠ Returns v.
Proof.
  induction n as [|n IH]; intros start vec v; [done|]. simpl.
  destruct (skip_seps NUL start) as [start1| |] eqn:Hs; [|done..].
  destruct (skip_seps_nul _ _ Hs) as (c & p & -> & Hc).
  rewrite decide_False by done.
  destruct (find_stop NUL p). apply IH.
Qed.

(** X5: with NUL for a separator the tokenizer runs past the end of every
    input that is not empty: after the last token the scan for leading
    separators takes the terminator for one. *)
Theorem parse_path_nul_separator (p : string) (vec : list string) :
  deref p ≠ NUL →
  parse_path (Some p) vec NUL = PastEnd.
Proof.
  intros Hp. unfold parse_path. rewrite decide_False by done.
  destruct (parse_loop (S (String.length p)) NUL p vec) as [v| |] eqn:Hl.
  - by apply parse_loop_nul in Hl.
  - done.
  - apply parse_loop_finishes in Hl; [done|lia].
Qed.

Lemma parse_path_nul_separator_witness :
  parse_path (Some "/usr/bin") ["/sbin"] NUL = PastEnd.
Proof. apply (parse_path_nul_separator "/usr/bin" ["/sbin"]). discriminate. Defined.

(** ** More on the assembler *)

Lemma first_throw (path_args : PathArgs) (toks : list string) :
  Forall (fun t => throws path_args t = false) toks
  ∨ ∃ l1 t l2, toks = l1 ++ t :: l2
               ∧ Forall (fun t => throws path_args t = false) l1
               ∧ throws path_args t = true.
Proof.
  induction toks as [|tok toks IH]; [by left|].
  destruct (throws path_args tok) eqn:Ht.
  { right. by exists [], tok, toks. }
  destruct IH as [IH|(l1 & t & l2 & -> & Hl1 & Hthrow)].
  - left. by constructor.
  - right. exists (tok :: l1), t, l2. split_and!; [done| |done]. by constructor.
Qed.

Lemma build_path_throws (path_args : PathArgs) (w : World) (tr : list syscall)
    (l1 l2 : list string) (t : string) :
  arg_vec path_args = l1 ++ t :: l2 →
  Forall (fun t => throws path_args t = false) l1 →
  throws path_args t = true →
  build_path path_args w tr
  = (Throw (out_of_range (String.length t) (String.length t)),
     tr ++ loop_calls path_args w None l1).
Proof.
  intros Hvec Hl1 Ht. unfold build_path. rewrite Hvec.
  apply bind_Throw. by apply (build_loop_throws path_args w l1 l2 t); [left|..].
Qed.

Lemma loop_calls_with_arg_vec (path_args : PathArgs) (w : World)
    (vec toks : list string) :
  ∀ home0, loop_calls (with_arg_vec path_args vec) w home0 toks
           = loop_calls path_args w home0 toks.
Proof.
  induction toks as [|tok toks IH]; intros home0; simpl; [done|].
  by rewrite IH.
Qed.

(** X6: [build_path] gives up at the first token that [at] cannot index:
    an empty token (unless [-f] is given without [-x]) or, with [-x], a
    token that is just a tilde. The exception is [out_of_range] with the
    index equal to the size; the calls made are those for the tokens
    before it, and the tokens after it are not looked at. *)
Theorem build_path_fails_fast (path_args : PathArgs) (w : World)
    (tr : list syscall) (l1 l2 : list string) (t : string) :
  arg_vec path_args = l1 ++ t :: l2 →
  Forall (fun t => throws path_args t = false) l1 →
  throws path_args t = true →
  build_path path_args w tr
  = (Throw (out_of_range (String.length t) (String.length t)),
     tr ++ loop_calls path_args w None l1)
  ∧ ∀ l2', build_path (with_arg_vec path_args (l1 ++ t :: l2')) w tr
           = build_path path_args w tr.
Proof.
  intros Hvec Hl1 Ht. split; [by eapply build_path_throws|].
  intros l2'. rewrite (build_path_throws path_args w tr l1 l2 t) by done.
  rewrite (build_path_throws (with_arg_vec path_args (l1 ++ t :: l2')) w tr
             l1 l2' t); [|reflexivity|exact Hl1|exact Ht].
  by rewrite loop_calls_with_arg_vec.
Qed.

Lemma build_path_fails_fast_witness :
  build_path sample_tilde_args alice []
  = (Throw (out_of_range (String.length "~") (String.length "~")),
     [] ++ loop_calls sample_tilde_args alice None ["/usr/bin"; "~/bin"])
  ∧ ∀ l2', build_path (with_arg_vec sample_tilde_args
                         (["/usr/bin"; "~/bin"] ++ "~" :: l2')) alice []
           = build_path sample_tilde_args alice [].
Proof.
  apply (build_path_fails_fast sample_tilde_args alice []
           ["/usr/bin"; "~/bin"] ["/no/such/dir"] "~").
  - reflexivity.
  - repeat constructor.
  - reflexivity.
Defined.

(** X7: over tokens that are not empty, as the tokenizer makes them,
    [build_path] completes unless [-x] is given and one of the tokens is
    just a tilde: nothing else makes it throw. *)
Theorem build_path_completes_iff (path_args : PathArgs) (w : World)
    (tr : list syscall) :
  Forall (fun t => t ≠ EmptyString) (arg_vec path_args) →
  (∃ out tr', build_path path_args w tr = (Ok out, tr'))
  ↔ ¬ (expand path_args = true ∧ "~" ∈ arg_vec path_args).
Proof.
  intros Hne. split.
  - intros (out & tr' & Hb) [He Hin].
    by apply (throws_false_tilde _ _ (build_path_Ok _ _ _ _ _ Hb) He).
  - intros Hn. do 2 eexists. apply build_path_entries; [done|].
    intros He Hin. by apply Hn.
Qed.

Lemma build_path_completes_iff_witness :
  (∃ out tr', build_path sample_args alice [] = (Ok out, tr'))
  ↔ ¬ (expand sample_args = true ∧ "~" ∈ arg_vec sample_args).
Proof.
  apply (build_path_completes_iff sample_args alice []).
  repeat constructor; discriminate.
Defined.

Lemma first_occurrences_sublist (l : list string) :
  first_occurrences l `sublist_of` l.
Proof.
  induction l as [|x l IH]; simpl; [done|].
  apply sublist_skip. etrans; [apply sublist_filter|done].
Qed.

Lemma entries_sublist (path_args : PathArgs) (w : World) (toks : list string) :
  entries path_args w toks `sublist_of` (expanded path_args w <$> toks).
Proof.
  unfold entries. destruct (allow_dups path_args).
  - apply sublist_filter.
  - etrans; [apply first_occurrences_sublist|apply sublist_filter].
Qed.

(** X8: the output keeps the order of the input: the entries that
    [build_path] joins are the tokens after home-directory expansion with
    some of them left out, none moved and none added. *)
Theorem build_path_keeps_order (path_args : PathArgs) (w : World)
    (tr tr' : list syscall) (out : string) :
  Forall (fun t => t ≠ EmptyString) (arg_vec path_args) →
  build_path path_args w tr = (Ok out, tr') →
  out = joined (sep path_args) (entries path_args w (arg_vec path_args))
  ∧ entries path_args w (arg_vec path_args)
    `sublist_of` (expanded path_args w <$> arg_vec path_args).
Proof.
  intros Hne Hb. destruct (build_path_Ok_entries _ _ _ _ _ Hne Hb) as (-> & _).
  split; [done|apply entries_sublist].
Qed.

Lemma build_path_keeps_order_witness :
  "/usr/bin:/usr/local/bin:/home/alice/bin:lib"
  = joined (sep sample_args) (entries sample_args alice (arg_vec sample_args))
  ∧ entries sample_args alice (arg_vec sample_args)
    `sublist_of` (expanded sample_args alice <$> arg_vec sample_args).
Proof.
  apply (build_path_keeps_order sample_args alice []
           [sys_stat "/usr/bin"; sys_stat "/usr/local/bin"; sys_getenv "HOME";
            sys_stat "/home/alice/bin"; sys_stat "/usr/bin";
            sys_stat "/no/such/dir"]).
  - repeat constructor; discriminate.
  - vm_compute. reflexivity.
Defined.

Lemma loop_calls_plain (path_args : PathArgs) (w : World) (toks : list string) :
  force path_args = true → expand path_args = false →
  ∀ home0, loop_calls path_args w home0 toks = [].
Proof.
  intros Hf He. induction toks as [|tok toks IH]; intros home0; simpl; [done|].
  unfold step_calls, home_after. by rewrite Hf, He, IH.
Qed.

(** X9: with [-d] and [-f] and without [-x], [build_path] is a plain
    join: every token is an entry of the output, in order, repeated as
    often as it was given, and no call is made. *)
Theorem build_path_plain_join (path_args : PathArgs) (w : World)
    (tr : list syscall) :
  allow_dups path_args = true →
  force path_args = true →
  expand path_args = false →
  Forall (fun t => t ≠ EmptyString) (arg_vec path_args) →
  build_path path_args w tr
  = (Ok (joined (sep path_args) (arg_vec path_args)), tr).
Proof.
  intros Hd Hf He Hne.
  rewrite build_path_entries; [|done|by rewrite He].
  rewrite loop_calls_plain, app_nil_r by done. do 2 f_equal.
  unfold entries. rewrite Hd.
  assert (expanded path_args w <$> arg_vec path_args = arg_vec path_args) as ->.
  { apply fmap_fixed, Forall_forall. intros t _. unfold expanded. by rewrite He. }
  f_equal. apply filter_all, Forall_forall. intros t _. unfold passes. by rewrite Hf.
Qed.

Lemma build_path_plain_join_witness :
  build_path sample_plain_args homeless [sys_getenv "PATH"]
  = (Ok (joined (sep sample_plain_args) (arg_vec sample_plain_args)),
     [sys_getenv "PATH"]).
Proof.
  apply (build_path_plain_join sample_plain_args homeless [sys_getenv "PATH"]).
  - reflexivity.
  - reflexivity.
  - reflexivity.
  - repeat constructor; discriminate.
Defined.

(** ** What the assembler reads *)

Section reads.

Variables (path_args : PathArgs) (w w' : World).
Hypothesis same_home :
  expand path_args = true → environ w !! "HOME" = environ w' !! "HOME".
Hypothesis same_stat :
  force path_args = false → ∀ p, stat_of w p = stat_of w' p.

Lemma expanded_ext (tok : string) :
  expanded path_args w tok = expanded path_args w' tok.
Proof.
  unfold expanded, home_dir. destruct (expand path_args); [|done].
  by rewrite same_home.
Qed.

Lemma passes_ext (v : string) : passes path_args w v = passes path_args w' v.
Proof.
  unfold passes, is_directory. destruct (force path_args); [done|].
  by rewrite same_stat.
Qed.

Lemma home_after_ext (home0 : option string) (tok : string) :
  home_after path_args w home0 tok = home_after path_args w' home0 tok.
Proof.
  unfold home_after. destruct (expand path_args); [|done].
  by rewrite same_home.
Qed.

Lemma kept_ext (toks : list string) :
  ∀ seen, kept path_args w seen toks = kept path_args w' seen toks.
Proof.
  induction toks as [|tok toks IH]; intros seen; simpl; [done|].
  unfold appends. by rewrite !expanded_ext, passes_ext, !IH.
Qed.

Lemma loop_calls_ext (toks : list string) :
  ∀ home0, loop_calls path_args w home0 toks = loop_calls path_args w' home0 toks.
Proof.
  induction toks as [|tok toks IH]; intros home0; simpl; [done|].
  unfold step_calls. by rewrite !expanded_ext, home_after_ext, IH.
Qed.

Lemma build_path_ext (tr : list syscall) :
  build_path path_args w tr = build_path path_args w' tr.
Proof.
  destruct (first_throw path_args (arg_vec path_args))
    as [Hall|(l1 & t & l2 & Hvec & Hl1 & Ht)].
  - by rewrite !build_path_spec, kept_ext, loop_calls_ext.
  - by rewrite !(build_path_throws _ _ _ l1 l2 t), loop_calls_ext.
Qed.

End reads.

(** X10: of its surroundings [build_path] reads the value of HOME, and
    this only with [-x], and what [stat] answers, and this only without
    [-f]: two worlds that agree on these give the same result, the same
    exception and the same calls. *)
Theorem build_path_reads (path_args : PathArgs) (w w' : World) (tr : list syscall) :
  (expand path_args = true → environ w !! "HOME" = environ w' !! "HOME") →
  (force path_args = false → ∀ p, stat_of w p = stat_of w' p) →
  build_path path_args w tr = build_path path_args w' tr.
Proof. intros H1 H2. by apply build_path_ext. Qed.

Lemma build_path_reads_witness :
  build_path sample_plain_args alice [] = build_path sample_plain_args colons [].
Proof.
  apply (build_path_reads sample_plain_args alice colons []).
  - discriminate.
  - discriminate.
Defined.

Lemma loop_calls_getenv (path_args : PathArgs) (w : World) (toks : list string)
    (n : string) :
  ∀ home0,
    sys_getenv n ∈ loop_calls path_args w home0 toks →
    n = "HOME" ∧ expand path_args = true
    ∧ ∃ tok, tok ∈ toks ∧ tilde_slash tok = true.
Proof.
  induction toks as [|tok toks IH]; intros home0; simpl.
  { by intros ?%elem_of_nil. }
  unfold step_calls. rewrite !elem_of_app. intros [[Hin|Hin]|Hin].
  - destruct (expand path_args && tilde_slash tok) eqn:Hc;
      [|by apply elem_of_nil in Hin].
    destruct home0; [by apply elem_of_nil in Hin|].
    apply list_elem_of_singleton in Hin as [= ->].
    apply andb_true_iff in Hc as [He Hts].
    split_and!; [done..|]. exists tok. split; [left|done].
  - destruct (negb (force path_args) && absolute (expanded path_args w tok));
      [|by apply elem_of_nil in Hin].
    by apply list_elem_of_singleton in Hin.
  - destruct (IH _ Hin) as (? & ? & tok' & ? & ?).
    split_and!; [done..|]. exists tok'. split; [by right|done].
Qed.

Lemma getenv_count_app (cs1 cs2 : list syscall) :
  getenv_count (cs1 ++ cs2) = getenv_count cs1 + getenv_count cs2.
Proof. unfold getenv_count. by rewrite filter_app, length_app. Qed.

Lemma getenv_count_stat (b : bool) (v : string) :
  getenv_count (if b then [sys_stat v] else []) = 0.
Proof. by destruct b. Qed.

Lemma loop_calls_cached (path_args : PathArgs) (w : World) (toks : list string) :
  ∀ home0,
    is_Some home0 ∨ is_Some (environ w !! "HOME") →
    getenv_count (loop_calls path_args w home0 toks)
    ≤ match home0 with Some _ => 0 | None => 1 end.
Proof.
  induction toks as [|tok toks IH]; intros home0 Hsome; simpl.
  { destruct home0; unfold getenv_count; simpl; lia. }
  unfold step_calls. rewrite !getenv_count_app, getenv_count_stat.
  unfold home_after.
  destruct (expand path_args && tilde_slash tok).
  - destruct home0 as [h|].
    + specialize (IH (Some h) ltac:(by left; eexists)). simpl in *.
      change (getenv_count []) with 0. lia.
    + destruct Hsome as [[? [=]]|[h Hh]]. rewrite Hh.
      specialize (IH (Some h) ltac:(by left; eexists)). simpl in *.
      change (getenv_count [sys_getenv "HOME"]) with 1. lia.
  - specialize (IH home0 Hsome). change (getenv_count []) with 0. lia.
Qed.

Lemma build_path_calls (path_args : PathArgs) (w : World) (tr tr' : list syscall)
    (r : result string) :
  build_path path_args w tr = (r, tr') →
  ∃ l1 l2, arg_vec path_args = l1 ++ l2
           ∧ tr' = tr ++ loop_calls path_args w None l1.
Proof.
  destruct (first_throw path_args (arg_vec path_args))
    as [Hall|(l1 & t & l2 & Hvec & Hl1 & Ht)].
  - rewrite build_path_spec by done. intros [= <- <-].
    exists (arg_vec path_args), []. by rewrite app_nil_r.
  - rewrite (build_path_throws _ _ _ l1 l2 t) by done. intros [= <- <-].
    by exists l1, (t :: l2).
Qed.

(** X11: the only environment variable that [build_path] asks for is
    HOME; it asks only when [-x] is given and a token begins with [~/];
    and when HOME is set it asks once, however many such tokens there
    are. *)
Theorem build_path_getenv (path_args : PathArgs) (w : World)
    (tr tr' : list syscall) (r : result string) :
  build_path path_args w tr = (r, tr') →
  ∃ cs, tr' = tr ++ cs
        ∧ (∀ n, sys_getenv n ∈ cs →
             n = "HOME" ∧ expand path_args = true
             ∧ ∃ tok, tok ∈ arg_vec path_args ∧ tilde_slash tok = true)
        ∧ (is_Some (environ w !! "HOME") → getenv_count cs ≤ 1).
Proof.
  intros (l1 & l2 & Hvec & ->)%build_path_calls.
  eexists. split_and!; [done| |].
  - intros n (? & ? & tok & Htok & ?)%loop_calls_getenv.
    split_and!; [done..|]. exists tok. split; [|done].
    rewrite Hvec. apply elem_of_app. by left.
  - intros Hh. by apply (loop_calls_cached path_args w l1 None); right.
Qed.

Lemma build_path_getenv_witness :
  ∃ cs, [sys_stat "/usr/bin"; sys_stat "/usr/local/bin"; sys_getenv "HOME";
         sys_stat "/home/alice/bin"; sys_stat "/usr/bin"; sys_stat "/no/such/dir"]
        = [] ++ cs
        ∧ (∀ n, sys_getenv n ∈ cs →
             n = "HOME" ∧ expand sample_args = true
             ∧ ∃ tok, tok ∈ arg_vec sample_args ∧ tilde_slash tok = true)
        ∧ (is_Some (environ alice !! "HOME") → getenv_count cs ≤ 1).
Proof.
  apply (build_path_getenv sample_args alice [] _
           (Ok "/usr/bin:/usr/local/bin:/home/alice/bin:lib")).
  vm_compute. reflexivity.
Defined.

Lemma loop_calls_unset (path_args : PathArgs) (w : World) (toks : list string) :
  environ w !! "HOME" = None →
  expand path_args = true →
  getenv_count (loop_calls path_args w None toks)
  = length (filter (fun t => tilde_slash t = true) toks).
Proof.
  intros Hh He. induction toks as [|tok toks IH]; simpl; [done|].
  unfold step_calls, home_after.
  rewrite !getenv_count_app, getenv_count_stat, He, Hh. simpl.
  rewrite filter_cons. destruct (tilde_slash tok) eqn:Hts.
  - rewrite decide_True by done. rewrite IH.
    by change (getenv_count [sys_getenv "HOME"]) with 1.
  - rewrite decide_False by done. rewrite IH.
    by change (getenv_count []) with 0.
Qed.

(** X12: a miss is not remembered: when HOME is not set, a run with
    [-x] that completes has asked for HOME once for every token that
    begins with [~/]. *)
Theorem build_path_getenv_unset (path_args : PathArgs) (w : World)
    (tr tr' : list syscall) (out : string) :
  environ w !! "HOME" = None →
  expand path_args = true →
  build_path path_args w tr = (Ok out, tr') →
  ∃ cs, tr' = tr ++ cs
        ∧ getenv_count cs
          = length (filter (fun t => tilde_slash t = true) (arg_vec path_args)).
Proof.
  intros Hh He Hb. pose proof (build_path_Ok _ _ _ _ _ Hb) as Hall.
  rewrite build_path_spec in Hb by done. injection Hb as _ <-.
  eexists. split; [done|]. by apply loop_calls_unset.
Qed.

Lemma build_path_getenv_unset_witness :
  ∃ cs, [sys_getenv "HOME"; sys_getenv "HOME"; sys_stat "/usr/bin"] = [] ++ cs
        ∧ getenv_count cs
          = length (filter (fun t => tilde_slash t = true)
                      (arg_vec sample_home_args)).
Proof.
  apply (build_path_getenv_unset sample_home_args homeless [] _
           "~/bin:~/lib:/usr/bin").
  - reflexivity.
  - reflexivity.
  - vm_compute. reflexivity.
Defined.

(** ** What the options of the assembler change *)



(** X14: [-d] changes how often an entry occurs and nothing else: over
    the same tokens the output without [-d] has the entries of the output
    with [-d], each once and in the order of their first occurrence,
    and no other. *)
Theorem allow_dups_only_repeats (path_args : PathArgs) (w : World)
    (tr : list syscall) :
  Forall (fun t => t ≠ EmptyString) (arg_vec path_args) →
  (expand path_args = true → "~" ∉ arg_vec path_args) →
  let es := entries (with_allow_dups path_args false) w (arg_vec path_args) in
  let es' := entries (with_allow_dups path_args true) w (arg_vec path_args) in
  (∃ tr1, build_path (with_allow_dups path_args false) w tr
          = (Ok (joined (sep path_args) es), tr1))
  ∧ (∃ tr2, build_path (with_allow_dups path_args true) w tr
            = (Ok (joined (sep path_args) es'), tr2))
  ∧ es = first_occurrences es'
  ∧ es `sublist_of` es'
  ∧ NoDup es
  ∧ ∀ v, v ∈ es ↔ v ∈ es'.
Proof.
  intros Hne Htilde es es'. split_and!.
  - eexists. by apply (build_path_entries (with_allow_dups path_args false)).
  - eexists. by apply (build_path_entries (with_allow_dups path_args true)).
  - done.
  - apply first_occurrences_sublist.
  - apply first_occurrences_NoDup.
  - intros v. apply first_occurrences_elem_of.
Qed.

Lemma allow_dups_only_repeats_witness :
  let es := entries (with_allow_dups sample_args false) alice (arg_vec sample_args) in
  let es' := entries (with_allow_dups sample_args true) alice (arg_vec sample_args) in
  (∃ tr1, build_path (with_allow_dups sample_args false) alice []
          = (Ok (joined (sep sample_args) es), tr1))
  ∧ (∃ tr2, build_path (with_allow_dups sample_args true) alice []
            = (Ok (joined (sep sample_args) es'), tr2))
  ∧ es = first_occurrences es'
  ∧ es `sublist_of` es'
  ∧ NoDup es
  ∧ ∀ v, v ∈ es ↔ v ∈ es'.
Proof.
  apply (allow_dups_only_repeats sample_args alice []).
  - repeat constructor; discriminate.
  - intros _. apply (bool_decide_unpack _). vm_compute. exact I.
Defined.

(** ** More on the command line *)

Lemma delivered_cons (c : ascii) (r : getopt_ret) (rs : list getopt_ret) :
  delivered c (r :: rs) ↔ opt r = c ∨ delivered c rs.
Proof.
  unfold delivered. split.
  - intros (r' & [->|Hin]%elem_of_cons & Ho); [by left|right; by exists r'].
  - intros [Ho|(r' & Hin & Ho)].
    + exists r. split; [left|done].
    + exists r'. split; [by right|done].
Qed.

Lemma delivered_nil (c : ascii) : ¬ delivered c [].
Proof. by intros (r & ?%elem_of_nil & _). Qed.

Lemma c_str_single (p : string) (c : ascii) :
  c_str p = String c EmptyString
  ↔ deref p = c ∧ c ≠ NUL ∧ deref (Str.erase_first p) = NUL.
Proof.
  destruct p as [|d p]; simpl.
  { split; [done|]. by intros (<- & ? & _). }
  destruct (decide (d = NUL)) as [->|Hd].
  { split; [done|]. by intros (<- & ? & _). }
  split.
  - intros [= <- Hp]. split_and!; [done..|].
    destruct p as [|e p]; [done|]. simpl in *. by destruct (decide (e = NUL)).
  - intros (<- & _ & Hp). f_equal.
    destruct p as [|e p]; [done|]. simpl in *. by rewrite decide_True.
Qed.

(** What a turn of the loop of [get_opts] that does not throw does to the
    flags and to the separator. *)
Lemma get_opts_case_fields (path_args path_args' : PathArgs)
    (sep_found sep_found' : bool) (r : getopt_ret) :
  get_opts_case path_args sep_found r = Ok (path_args', sep_found') →
  (allow_dups path_args' = true ↔ allow_dups path_args = true ∨ opt r = "d"%char)
  ∧ (force path_args' = true ↔ force path_args = true ∨ opt r = "f"%char)
  ∧ (expand path_args' = true ↔ expand path_args = true ∨ opt r = "x"%char)
  ∧ (opt r = "s"%char →
     sep_found' = true ∧ c_str (optarg r) = String (sep path_args') EmptyString)
  ∧ (opt r ≠ "s"%char → sep path_args' = sep path_args).
Proof.
  destruct (decide (opt r = "s"%char)) as [Hs|Hs].
  - rewrite get_opts_case_s by done.
    destruct (decide (NUL = deref (optarg r))) as [|Hnul]; [done|].
    destruct (decide (NUL ≠ deref (Str.erase_first (optarg r)))) as [|Hone];
      [done|].
    destruct (sep_found && bool_decide (deref (optarg r) ≠ sep path_args));
      [done|].
    intros [= <- <-]. simpl. rewrite Hs.
    split_and!; try (split; [by left|by intros [|[=]]]); [|done].
    intros _. split; [done|]. apply c_str_single.
    split_and!; [done|by auto|]. by apply dec_stable in Hone.
  - unfold get_opts_case.
    destruct (opt r) as [[] [] [] [] [] [] [] []]; try done;
      intros [= <- <-]; simpl;
      (split_and!; [| | |done|done]);
      (split; [intros ?; first [by left|by right]|by intros [|[=]]]).
Qed.

Lemma get_opts_loop_fields (rs : list getopt_ret) :
  ∀ (path_args path_args' : PathArgs) (sep_found : bool),
    get_opts_loop path_args sep_found rs = Ok path_args' →
    (allow_dups path_args' = true
     ↔ allow_dups path_args = true ∨ delivered "d"%char rs)
    ∧ (force path_args' = true ↔ force path_args = true ∨ delivered "f"%char rs)
    ∧ (expand path_args' = true
       ↔ expand path_args = true ∨ delivered "x"%char rs)
    ∧ (∀ r, r ∈ rs → opt r = "s"%char →
         c_str (optarg r) = String (sep path_args') EmptyString)
    ∧ (¬ delivered "s"%char rs → sep path_args' = sep path_args)
    ∧ (sep_found = true → sep path_args' = sep path_args).
Proof.
  induction rs as [|r rs IH]; intros path_args path_args' sep_found; simpl.
  - intros [= <-]. split_and!; try done;
      try (split; [by left|intros [|?%delivered_nil]; done]).
    by intros r ?%elem_of_nil.
  - destruct (get_opts_case path_args sep_found r) as [[pa1 sf1]|e] eqn:Hc;
      [|done].
    simpl. intros Hl.
    destruct (get_opts_case_fields _ _ _ _ _ Hc) as (Hd & Hf & Hx & Hs & Hns).
    destruct (get_opts_case_Ok _ _ _ _ _ Hc) as (_ & _ & _ & Hsf).
    destruct (IH _ _ _ Hl) as (Hd' & Hf' & Hx' & Hs' & Hns' & Hsf').
    split_and!.
    + rewrite Hd', Hd, delivered_cons. tauto.
    + rewrite Hf', Hf, delivered_cons. tauto.
    + rewrite Hx', Hx, delivered_cons. tauto.
    + intros r' [->|Hin]%elem_of_cons Ho; [|by apply Hs'].
      destruct (Hs Ho) as [-> Hr]. by rewrite Hsf'.
    + rewrite delivered_cons. intros Hn.
      rewrite Hns' by tauto. apply Hns. tauto.
    + intros ->. destruct (Hsf eq_refl) as [-> <-]. by apply Hsf'.
Qed.

(** X15: what [get_opts] leaves when it accepts the command line: each
    flag is set exactly when its option was given, however often and
    wherever; the separator is the colon when there was no [-s], and
    otherwise the one character that every [-s] gave; it is never NUL;
    and [arg_vec] is still empty. *)
Theorem get_opts_result (w : World) (args operands : list string)
    (path_args : PathArgs) :
  get_opts w args = Ok (path_args, operands) →
  let rs := (getopt_scan (getopt_permutes w) args).1 in
  arg_vec path_args = []
  ∧ operands = (getopt_scan (getopt_permutes w) args).2
  ∧ (allow_dups path_args = true ↔ delivered "d"%char rs)
  ∧ (force path_args = true ↔ delivered "f"%char rs)
  ∧ (expand path_args = true ↔ delivered "x"%char rs)
  ∧ (help path_args = true ↔ delivered "h"%char rs)
  ∧ (¬ delivered "s"%char rs → sep path_args = DEFAULT_SEP)
  ∧ (∀ r, r ∈ rs → opt r = "s"%char →
       c_str (optarg r) = String (sep path_args) EmptyString)
  ∧ sep path_args ≠ NUL.
Proof.
  intros Hg rs.
  destruct (get_opts_Ok _ _ _ _ Hg) as (Hv & Hsep & Hops & Hhelp).
  unfold get_opts in Hg. subst rs.
  destruct (getopt_scan (getopt_permutes w) args) as [rs operands'].
  destruct (get_opts_loop _ false rs) as [pa|e] eqn:Hl; [|done].
  simpl in Hg. injection Hg as -> ->.
  destruct (get_opts_loop_fields _ _ _ _ Hl) as (Hd & Hf & Hx & Hs & Hns & _).
  simpl in *. split_and!; try done.
  - rewrite Hd. split; [by intros [|]|by right].
  - rewrite Hf. split; [by intros [|]|by right].
  - rewrite Hx. split; [by intros [|]|by right].
Qed.

Lemma get_opts_result_witness :
  let rs := (getopt_scan (getopt_permutes alice)
               ["-dx"; "lib"; "-s;"; "-d"; "-s"; ";"; "/usr/bin"]).1 in
  arg_vec sample_opts = []
  ∧ ["lib"; "/usr/bin"]
    = (getopt_scan (getopt_permutes alice)
         ["-dx"; "lib"; "-s;"; "-d"; "-s"; ";"; "/usr/bin"]).2
  ∧ (allow_dups sample_opts = true ↔ delivered "d"%char rs)
  ∧ (force sample_opts = true ↔ delivered "f"%char rs)
  ∧ (expand sample_opts = true ↔ delivered "x"%char rs)
  ∧ (help sample_opts = true ↔ delivered "h"%char rs)
  ∧ (¬ delivered "s"%char rs → sep sample_opts = DEFAULT_SEP)
  ∧ (∀ r, r ∈ rs → opt r = "s"%char →
       c_str (optarg r) = String (sep sample_opts) EmptyString)
  ∧ sep sample_opts ≠ NUL.
Proof.
  apply (get_opts_result alice ["-dx"; "lib"; "-s;"; "-d"; "-s"; ";"; "/usr/bin"]
           ["lib"; "/usr/bin"] sample_opts).
  reflexivity.
Defined.

Lemma get_opts_case_rejected (path_args : PathArgs) (sep_found : bool)
    (r : getopt_ret) :
  rejected r → ∃ e, get_opts_case path_args sep_found r = Throw e.
Proof.
  intros [Hn|[Hs Harg]].
  - unfold get_opts_case.
    destruct (opt r) as [[] [] [] [] [] [] [] []];
      first [by eexists
            |exfalso; apply Hn; apply (bool_decide_unpack _); vm_compute; exact I].
  - rewrite get_opts_case_s by done.
    destruct (decide (NUL = deref (optarg r))) as [Hnul|Hnul]; [by eexists|].
    destruct (decide (NUL ≠ deref (Str.erase_first (optarg r)))) as [|Hone];
      [by eexists|].
    apply dec_stable in Hone. destruct Harg as [Harg|Harg]; congruence.
Qed.

Lemma get_opts_loop_rejected (rs : list getopt_ret) (r : getopt_ret) :
  r ∈ rs → rejected r →
  ∀ (path_args : PathArgs) (sep_found : bool),
    ∃ e, get_opts_loop path_args sep_found rs = Throw e.
Proof.
  intros Hin Hr. induction rs as [|r' rs IH]; intros path_args sep_found.
  { by apply elem_of_nil in Hin. }
  simpl. apply elem_of_cons in Hin as [<-|Hin].
  - destruct (get_opts_case_rejected path_args sep_found r Hr) as [e ->].
    by eexists.
  - destruct (get_opts_case path_args sep_found r') as [[pa1 sf1]|e];
      [|by eexists].
    simpl. by apply IH.
Qed.

(** X16: every option that [get_opts] rejects ends the run before it
    starts: when [getopt] delivers, anywhere on the command line, an
    option that is not one of the five, an option without its argument,
    or an [-s] whose argument is empty or longer than a character, [main]
    ends with exit code 1 and a [runtime_error] on [cerr], with nothing on
    [cout] and no call made. *)
Theorem rejected_option (w : World) (argv0 : string) (args : list string)
    (r : getopt_ret) :
  r ∈ (getopt_scan (getopt_permutes w) args).1 →
  rejected r →
  ∃ what,
    get_opts w args = Throw (runtime_error what)
    ∧ main w argv0 args
      = Returns {| rc := 1; cout := EmptyString;
                   cerr := Some (report_runtime_error (basename argv0) what);
                   calls := [] |}.
Proof.
  intros Hin Hr. unfold main, get_opts.
  destruct (getopt_scan (getopt_permutes w) args) as [rs operands].
  destruct (get_opts_loop_rejected rs r Hin Hr
              {| arg_vec := []; sep := DEFAULT_SEP; allow_dups := false;
                 force := false; help := false; expand := false |} false)
    as [e He].
  rewrite He. destruct (get_opts_loop_Throw _ _ _ _ He) as [what ->].
  by exists what.
Qed.

Lemma rejected_option_witness :
  ∃ what,
    get_opts alice ["-d"; "/usr/bin"; "-s"; "::"; "-h"] = Throw (runtime_error what)
    ∧ main alice "catpath" ["-d"; "/usr/bin"; "-s"; "::"; "-h"]
      = Returns {| rc := 1; cout := EmptyString;
                   cerr := Some (report_runtime_error (basename "catpath") what);
                   calls := [] |}.
Proof.
  apply (rejected_option alice "catpath" ["-d"; "/usr/bin"; "-s"; "::"; "-h"]
           {| opt := "s"; optarg := "::"; optopt := NUL |}).
  - simpl. apply list_elem_of_further, list_elem_of_here.
  - right. split; [reflexivity|]. right. discriminate.
Defined.

Lemma get_opts_case_message (path_args : PathArgs) (sep_found : bool)
    (r : getopt_ret) (e : exn) :
  opt r ∈ getopt_values →
  get_opts_case path_args sep_found r = Throw e →
  ∃ what, e = runtime_error what ∧ option_error what.
Proof.
  unfold getopt_values, option_error.
  rewrite !elem_of_cons, elem_of_nil.
  intros [Ho|[Ho|[Ho|[Ho|[Ho|[Ho|[Ho|[]]]]]]]];
    try (unfold get_opts_case; rewrite Ho; simpl; done).
  - rewrite get_opts_case_s by done.
    repeat case_match; intros [= <-]; eexists; (split; [done|]); tauto.
  - unfold get_opts_case. rewrite Ho. simpl. intros [= <-].
    eexists. split; [done|]. do 3 right. left. by eexists.
  - unfold get_opts_case. rewrite Ho. simpl. intros [= <-].
    eexists. split; [done|]. do 4 right. by eexists.
Qed.

Lemma get_opts_loop_message (rs : list getopt_ret) :
  Forall (fun r => opt r ∈ getopt_values) rs →
  ∀ (path_args : PathArgs) (sep_found : bool) (e : exn),
    get_opts_loop path_args sep_found rs = Throw e →
    ∃ what, e = runtime_error what ∧ option_error what.
Proof.
  induction 1 as [|r rs Hr _ IH]; intros path_args sep_found e; simpl; [done|].
  destruct (get_opts_case path_args sep_found r) as [[pa1 sf1]|e1] eqn:Hc; simpl.
  - apply IH.
  - intros [= <-]. by eapply get_opts_case_message.
Qed.

Lemma get_opts_Throw (w : World) (args : list string) (e : exn) :
  get_opts w args = Throw e →
  ∃ what, e = runtime_error what ∧ option_error what.
Proof.
  unfold get_opts.
  pose proof (getopt_scan_values (getopt_permutes w) args) as Hv.
  destruct (getopt_scan (getopt_permutes w) args) as [rs operands]. simpl in Hv.
  destruct (get_opts_loop _ false rs) as [pa|e1] eqn:Hl; [done|].
  simpl. intros [= <-]. by eapply get_opts_loop_message.
Qed.

(** X17: whatever the command line, an exception that leaves [get_opts] is
    a [runtime_error] with one of five messages: the separator is empty,
    it has several characters, two separators conflict, an option lacks
    its argument, or an option is unknown.  The [default] branch of the
    [switch], with its internal error, is never taken. *)
Theorem get_opts_messages (w : World) (args : list string) (e : exn) :
  get_opts w args = Throw e →
  ∃ what, e = runtime_error what ∧ option_error what.
Proof. apply get_opts_Throw. Qed.

Lemma get_opts_messages_witness :
  ∃ what, runtime_error "Invalid option -z on command line" = runtime_error what
          ∧ option_error what.
Proof.
  apply (get_opts_messages alice ["-f"; "-z"; "/usr/bin"]). reflexivity.
Defined.

Lemma get_opts_loop_first_error (l1 l2 : list getopt_ret) (r : getopt_ret)
    (e : exn) :
  (∀ path_args sep_found, get_opts_case path_args sep_found r = Throw e) →
  ∀ (path_args path_args1 : PathArgs) (sep_found : bool),
    get_opts_loop path_args sep_found l1 = Ok path_args1 →
    get_opts_loop path_args sep_found (l1 ++ r :: l2) = Throw e.
Proof.
  intros He. induction l1 as [|r1 l1 IH]; intros path_args path_args1 sep_found;
    simpl.
  - intros _. by rewrite He.
  - destruct (get_opts_case path_args sep_found r1) as [[pa1 sf1]|e1]; [|done].
    simpl. apply IH.
Qed.

(** X18: the first option that [getopt] does not know, or that lacks its
    argument, is the one reported: when the options before it are
    accepted, [main] ends with exit code 1, nothing on [cout], no call
    made, and on [cerr] the message that names the character of that
    option, whatever follows it on the command line. *)
Theorem option_error_reported (w : World) (argv0 : string) (args : list string)
    (l1 l2 : list getopt_ret) (r : getopt_ret) (path_args1 : PathArgs) :
  (getopt_scan (getopt_permutes w) args).1 = l1 ++ r :: l2 →
  get_opts_loop default_args false l1 = Ok path_args1 →
  opt r = "?"%char ∨ opt r = ":"%char →
  main w argv0 args
  = Returns {| rc := 1; cout := EmptyString;
               cerr := Some (report_runtime_error (basename argv0)
                 (if decide (opt r = "?"%char)
                  then "Invalid option -" +:+ String (optopt r) " on command line"
                  else "Required argument missing on -"
                       +:+ String (optopt r) " option"));
               calls := [] |}.
Proof.
  intros Hrs Hl1 Ho. unfold main, get_opts.
  destruct (getopt_scan (getopt_permutes w) args) as [rs operands].
  simpl in Hrs. subst rs. unfold default_args in Hl1.
  set (what := if decide (opt r = "?"%char)
               then "Invalid option -" +:+ String (optopt r) " on command line"
               else "Required argument missing on -"
                    +:+ String (optopt r) " option").
  assert (∀ pa sf, get_opts_case pa sf r = Throw (runtime_error what)) as He.
  { intros pa sf. unfold get_opts_case, what.
    destruct Ho as [Ho|Ho]; by rewrite Ho. }
  by rewrite (get_opts_loop_first_error l1 l2 r _ He _ _ _ Hl1).
Qed.

Lemma option_error_reported_witness :
  main alice "/usr/local/bin/catpath" ["-d"; "lib"; "-xq"; "-h"]
  = Returns {| rc := 1; cout := EmptyString;
               cerr := Some (report_runtime_error
                 (basename "/usr/local/bin/catpath")
                 (if decide ("?"%char = "?"%char)
                  then "Invalid option -" +:+ String "q" " on command line"
                  else "Required argument missing on -" +:+ String "q" " option"));
               calls := [] |}.
Proof.
  apply (option_error_reported alice "/usr/local/bin/catpath"
           ["-d"; "lib"; "-xq"; "-h"]
           [{| opt := "d"; optarg := EmptyString; optopt := NUL |};
            {| opt := "x"; optarg := EmptyString; optopt := NUL |}]
           [{| opt := "h"; optarg := EmptyString; optopt := NUL |}]
           {| opt := "?"; optarg := EmptyString; optopt := "q" |}
           {| arg_vec := []; sep := DEFAULT_SEP; allow_dups := true;
              force := false; help := false; expand := true |}).
  - reflexivity.
  - reflexivity.
  - left. reflexivity.
Defined.

Lemma get_opts_case_accepted (c : ascii) (path_args : PathArgs)
    (sep_found : bool) (r : getopt_ret) :
  accepted c r →
  (sep_found = true → sep path_args = c) →
  ∃ path_args1 sep_found1,
    get_opts_case path_args sep_found r = Ok (path_args1, sep_found1)
    ∧ (sep_found1 = true → sep path_args1 = c).
Proof.
  intros [Ho|[Ho Hc]] Hsf.
  - rewrite !elem_of_cons, elem_of_nil in Ho. unfold get_opts_case.
    destruct Ho as [Ho|[Ho|[Ho|[Ho|[]]]]]; rewrite Ho; simpl; by do 2 eexists.
  - rewrite get_opts_case_s by done.
    apply c_str_single in Hc as (Hd & Hc & He).
    rewrite decide_False by congruence.
    rewrite decide_False by (intros Hn; by apply Hn).
    destruct sep_found; simpl.
    + rewrite bool_decide_eq_false_2 by (intros Hn; apply Hn; by rewrite Hsf).
      by do 2 eexists.
    + by do 2 eexists.
Qed.

Lemma get_opts_loop_accepted (c : ascii) (rs : list getopt_ret) :
  Forall (accepted c) rs →
  ∀ (path_args : PathArgs) (sep_found : bool),
    (sep_found = true → sep path_args = c) →
    ∃ path_args', get_opts_loop path_args sep_found rs = Ok path_args'.
Proof.
  induction 1 as [|r rs Hr _ IH]; intros path_args sep_found Hsf; simpl.
  - by eexists.
  - destruct (get_opts_case_accepted c path_args sep_found r Hr Hsf)
      as (pa1 & sf1 & -> & Hsf1).
    simpl. by apply IH.
Qed.

(** X19: the command lines that [get_opts] accepts are exactly those on
    which [getopt] delivers nothing but the flags [-d], [-f], [-h], [-x]
    and [-s] options that all give the same single character; every
    other command line makes it throw. *)
Theorem get_opts_accepts_iff (w : World) (args : list string) :
  (∃ path_args operands, get_opts w args = Ok (path_args, operands))
  ↔ ∃ c, Forall (accepted c) (getopt_scan (getopt_permutes w) args).1.
Proof.
  unfold get_opts.
  pose proof (getopt_scan_values (getopt_permutes w) args) as Hv.
  destruct (getopt_scan (getopt_permutes w) args) as [rs operands]. simpl in *.
  split.
  - intros (path_args & operands' & Hg).
    destruct (get_opts_loop _ false rs) as [pa|e] eqn:Hl; [|done].
    simpl in Hg. injection Hg as -> ->.
    destruct (get_opts_loop_fields _ _ _ _ Hl) as (_ & _ & _ & Hs & _).
    exists (sep path_args). apply Forall_forall. intros r Hin.
    rewrite Forall_forall in Hv. specialize (Hv r Hin).
    unfold getopt_values in Hv. rewrite !elem_of_cons, elem_of_nil in Hv.
    unfold accepted. rewrite !elem_of_cons, elem_of_nil.
    destruct Hv as [Ho|[Ho|[Ho|[Ho|[Ho|[Ho|[Ho|[]]]]]]]]; try tauto.
    + right. split; [done|]. by apply Hs.
    + destruct (get_opts_loop_rejected rs r Hin) with
        (path_args := {| arg_vec := []; sep := DEFAULT_SEP; allow_dups := false;
                         force := false; help := false; expand := false |})
        (sep_found := false) as [e He]; [|congruence].
      left. rewrite Ho. apply (bool_decide_unpack _). vm_compute. exact I.
    + destruct (get_opts_loop_rejected rs r Hin) with
        (path_args := {| arg_vec := []; sep := DEFAULT_SEP; allow_dups := false;
                         force := false; help := false; expand := false |})
        (sep_found := false) as [e He]; [|congruence].
      left. rewrite Ho. apply (bool_decide_unpack _). vm_compute. exact I.
  - intros [c Hacc].
    destruct (get_opts_loop_accepted c rs Hacc
                {| arg_vec := []; sep := DEFAULT_SEP; allow_dups := false;
                   force := false; help := false; expand := false |} false)
      as [pa ->]; [done|].
    simpl. by do 2 eexists.
Qed.

(** ** The whole program *)

Lemma parse_operands_operand_tokens (sep : ascii) (operands : list string) :
  sep ≠ NUL →
  ∀ vec, parse_operands operands vec sep
         = Returns (vec ++ operand_tokens sep operands).
Proof.
  intros Hsep. unfold operand_tokens.
  induction operands as [|a operands IH]; intros vec; cbn [parse_operands].
  - simpl. by rewrite app_nil_r.
  - rewrite parse_path_tokens_of by done. rewrite IH. simpl.
    by rewrite app_assoc.
Qed.

Lemma operand_tokens_not_empty (sep : ascii) (operands : list string) :
  Forall (fun t => t ≠ EmptyString) (operand_tokens sep operands).
Proof.
  unfold operand_tokens. induction operands as [|a operands IH]; simpl.
  - constructor.
  - apply Forall_app. split; [|done].
    unfold tokens_of. apply Forall_forall.
    by intros t [? _]%list_elem_of_filter.
Qed.

Lemma ends_with_app_r (c : ascii) (s t : string) :
  ends_with c t = true → ends_with c (s +:+ t) = true.
Proof.
  intros Ht. rewrite ends_with_app; [done|]. by intros ->.
Qed.

Lemma show_help_ends (name : string) : ends_with "010" (show_help name) = true.
Proof.
  unfold show_help.
  repeat lazymatch goal with
         | |- ends_with _ (_ +:+ _) = true => apply ends_with_app_r
         end.
  reflexivity.
Qed.

(** X20: a run of the program from the command line to its output.  When
    [get_opts] accepts the options, [-h] is not among them and, with [-x],
    no token is just a tilde, [main] ends with exit code 0 and nothing on
    [cerr]; it writes one line: the entries of the tokens of all the
    operands, in order, joined by the separator; and the calls it made are
    those of the assembler on these tokens. *)
Theorem main_output (w : World) (argv0 : string) (args operands : list string)
    (path_args : PathArgs) :
  get_opts w args = Ok (path_args, operands) →
  help path_args = false →
  (expand path_args = true →
   "~" ∉ operand_tokens (sep path_args) operands) →
  main w argv0 args
  = Returns {| rc := 0;
               cout := joined (sep path_args)
                         (entries path_args w
                            (operand_tokens (sep path_args) operands))
                       +:+ nl;
               cerr := None;
               calls := loop_calls path_args w None
                          (operand_tokens (sep path_args) operands) |}.
Proof.
  intros Hg Hh Htilde.
  destruct (get_opts_Ok _ _ _ _ Hg) as (Hv & Hsep & _).
  unfold main. rewrite Hg, Hh, Hv.
  rewrite parse_operands_operand_tokens by done. rewrite app_nil_l.
  rewrite build_path_entries;
    [|exact (operand_tokens_not_empty _ _)|exact Htilde].
  rewrite loop_calls_with_arg_vec. reflexivity.
Qed.

Lemma main_output_witness :
  main alice "catpath" ["-x"; "/usr/bin:~/bin"; "lib"]
  = Returns {| rc := 0;
               cout := joined (sep sample_x_opts)
                         (entries sample_x_opts alice
                            (operand_tokens (sep sample_x_opts)
                               ["/usr/bin:~/bin"; "lib"]))
                       +:+ nl;
               cerr := None;
               calls := loop_calls sample_x_opts alice None
                          (operand_tokens (sep sample_x_opts)
                             ["/usr/bin:~/bin"; "lib"]) |}.
Proof.
  apply (main_output alice "catpath" ["-x"; "/usr/bin:~/bin"; "lib"]
           ["/usr/bin:~/bin"; "lib"] sample_x_opts).
  - reflexivity.
  - reflexivity.
  - intros _. apply (bool_decide_unpack _). vm_compute. exact I.
Defined.

(** X21: every run of [main] ends, in one of three ways: with exit code 0,
    nothing on [cerr] and, on [cout], text that ends with a newline; with
    exit code 1, nothing on [cout], a [runtime_error] on [cerr] and no
    call made; or with exit code 1, nothing on [cout] and, on [cerr], the
    [out_of_range] of an [at] just past the end of a token. *)
Theorem main_outcome (w : World) (argv0 : string) (args : list string) :
  ∃ o, main w argv0 args = Returns o
       ∧ (rc o = 0%Z ∧ cerr o = None ∧ ends_with "010" (cout o) = true
          ∨ rc o = 1%Z ∧ cout o = EmptyString
            ∧ ((∃ what, cerr o = Some (report_runtime_error (basename argv0) what)
                        ∧ option_error what ∧ calls o = [])
               ∨ ∃ n, cerr o = Some (report_exception (basename argv0)
                                       (out_of_range n n)))).
Proof.
  unfold main.
  destruct (get_opts w args) as [[path_args operands]|e] eqn:Hg.
  - destruct (help path_args).
    { eexists. split; [done|]. left. simpl. split_and!; [done..|].
      apply show_help_ends. }
    destruct (get_opts_Ok _ _ _ _ Hg) as (Hv & Hsep & _).
    rewrite Hv, parse_operands_operand_tokens by done. rewrite app_nil_l.
    set (toks := operand_tokens (sep path_args) operands).
    destruct (first_throw (with_arg_vec path_args toks) toks)
      as [Hf|(l1 & t & l2 & Heq & Hf & Ht)].
    + rewrite build_path_spec by exact Hf.
      eexists. split; [done|]. left. simpl. split_and!; [done..|].
      by apply ends_with_app_r.
    + rewrite (build_path_throws (with_arg_vec path_args toks) w [] l1 l2 t
                 Heq Hf Ht).
      eexists. split; [done|]. right. simpl. split_and!; [done..|].
      right. by eexists.
  - destruct (get_opts_Throw w args e Hg) as (what & -> & Hw).
    eexists. split; [done|]. right. simpl. split_and!; [done..|].
    left. by exists what.
Qed.
